(** * TCP file transfer (Practice 1): receiver, sender and accept loop

    A shallow embedding of [file_server.py] and [file_client.py]: the wire
    encoding of the metadata header, the byte-counting receive loop, the
    two acknowledgment checkpoints and the sequential accept loop.  The
    operating system (socket, file system, console) is modelled as explicit
    state that records every operation the program performs on it. *)

From Stdlib Require Import ZArith List Lia Bool.
From Stdlib Require Import Strings.String Strings.Byte.
From stdpp Require Import gmap list.
From Equations Require Import Equations.

Import ListNotations.
Local Open Scope Z_scope.

(** ** Bytes *)

Abbreviation byte := Byte.byte.
Abbreviation bytes := (list Byte.byte).

#[global] Instance byte_eq_decision : EqDecision byte := Byte.byte_eq_dec.

Definition Z_of_byte (b : byte) : Z := Z.of_N (Byte.to_N b).

(** [bytes([z])]: only called on values in [0, 256). *)
Definition byte_of_Z (z : Z) : byte :=
  match Byte.of_N (Z.to_N z) with
  | Some b => b
  | None => Byte.x00
  end.

(** A bytes literal such as [b"OK"]. *)
Definition b_lit (s : String.string) : bytes := String.list_byte_of_string s.

(** [len(data)] as a Python integer. *)
Definition len {A} (l : list A) : Z := Z.of_nat (length l).

(** ** struct.pack / struct.unpack, network byte order *)

Inductive exn : Type :=
| StructError              (* struct.error *)
| UnicodeDecodeError
| UnicodeEncodeError
| ConnectionResetError     (* recv on a connection the peer has reset *)
| BrokenPipeError          (* send on a connection the peer has torn down *)
| ConnectionRefusedError
| OSError                  (* any other failure to connect *)
| FileExistsError
| FileNotFoundError
| IsADirectoryError
| NotADirectoryError
| ValueError               (* embedded null byte *)
| BinasciiError.           (* binascii.Error *)

(** Big-endian digits of [n] on [k] bytes. *)
Fixpoint be_bytes (k : nat) (n : Z) : bytes :=
  match k with
  | O => []
  | S k' => be_bytes k' (n / 256) ++ [byte_of_Z (n mod 256)]
  end.

(** Big-endian value of a byte string. *)
Definition be_value (bs : bytes) : Z :=
  fold_left (fun acc b => acc * 256 + Z_of_byte b) bs 0.

(** [struct.pack('!I', n)] / [struct.pack('!Q', n)]: the argument has to fit
    the format, otherwise [struct.error]. *)
Definition pack_uint (k : nat) (n : Z) : exn + bytes :=
  if (0 <=? n) && (n <? 256 ^ Z.of_nat k) then inr (be_bytes k n)
  else inl StructError.

(** [struct.unpack('!I', data)[0]] / [struct.unpack('!Q', data)[0]]: the
    buffer has to be exactly as long as the format. *)
Definition unpack_uint (k : nat) (data : bytes) : exn + Z :=
  if decide (length data = k) then inr (be_value data)
  else inl StructError.

Definition pack_I := pack_uint 4.
Definition pack_Q := pack_uint 8.
Definition unpack_I := unpack_uint 4.
Definition unpack_Q := unpack_uint 8.

(** ** str.encode('utf-8') / bytes.decode('utf-8')

    A Python [str] is a sequence of code points. *)

Abbreviation pystr := (list Z).

Definition str_lit (s : String.string) : pystr := map Z_of_byte (b_lit s).

Definition utf8_encode_cp (c : Z) : option bytes :=
  if c <? 0 then None
  else if c <? 0x80 then Some [byte_of_Z c]
  else if c <? 0x800 then
    Some [byte_of_Z (0xC0 + c / 64); byte_of_Z (0x80 + c mod 64)]
  else if c <? 0x10000 then
    if (0xD800 <=? c) && (c <=? 0xDFFF) then None   (* lone surrogate *)
    else Some [byte_of_Z (0xE0 + c / 4096);
               byte_of_Z (0x80 + (c / 64) mod 64);
               byte_of_Z (0x80 + c mod 64)]
  else if c <? 0x110000 then
    Some [byte_of_Z (0xF0 + c / 262144);
          byte_of_Z (0x80 + (c / 4096) mod 64);
          byte_of_Z (0x80 + (c / 64) mod 64);
          byte_of_Z (0x80 + c mod 64)]
  else None.

Fixpoint utf8_encode (s : pystr) : option bytes :=
  match s with
  | [] => Some []
  | c :: s' =>
      match utf8_encode_cp c, utf8_encode s' with
      | Some e, Some r => Some (e ++ r)
      | _, _ => None
      end
  end.

Definition is_cont (b : byte) : bool :=
  (0x80 <=? Z_of_byte b) && (Z_of_byte b <? 0xC0).

Definition cont_bits (b : byte) : Z := Z_of_byte b - 0x80.

Definition cons_to (c : Z) (r : option pystr) : option pystr :=
  match r with Some s => Some (c :: s) | None => None end.

(** The strict decoder: shortest form only, no surrogates, nothing above
    U+10FFFF, no truncated sequence. *)
Fixpoint utf8_decode (bs : bytes) : option pystr :=
  match bs with
  | [] => Some []
  | b0 :: t0 =>
      let x0 := Z_of_byte b0 in
      if x0 <? 0x80 then cons_to x0 (utf8_decode t0)
      else if x0 <? 0xC2 then None
      else if x0 <? 0xE0 then
        match t0 with
        | b1 :: t1 =>
            if is_cont b1
            then cons_to ((x0 - 0xC0) * 64 + cont_bits b1) (utf8_decode t1)
            else None
        | _ => None
        end
      else if x0 <? 0xF0 then
        match t0 with
        | b1 :: b2 :: t2 =>
            let c := (x0 - 0xE0) * 4096 + cont_bits b1 * 64 + cont_bits b2 in
            if is_cont b1 && is_cont b2 && (0x800 <=? c)
               && negb ((0xD800 <=? c) && (c <=? 0xDFFF))
            then cons_to c (utf8_decode t2)
            else None
        | _ => None
        end
      else if x0 <? 0xF5 then
        match t0 with
        | b1 :: b2 :: b3 :: t3 =>
            let c := (x0 - 0xF0) * 262144 + cont_bits b1 * 4096
                     + cont_bits b2 * 64 + cont_bits b3 in
            if is_cont b1 && is_cont b2 && is_cont b3
               && (0x10000 <=? c) && (c <? 0x110000)
            then cons_to c (utf8_decode t3)
            else None
        | _ => None
        end
      else None
  end.

(** ** Control flow: values, [return] and exceptions over explicit state *)

Inductive res (R A : Type) : Type :=
| Val (a : A)          (* the statement completed *)
| Ret (r : R)          (* a [return] statement was executed *)
| Exc (e : exn).       (* an exception is propagating *)
Arguments Val {R A} a.
Arguments Ret {R A} r.
Arguments Exc {R A} e.

Definition M (St R A : Type) : Type := St -> res R A * St.

Definition ret {St R A} (a : A) : M St R A := fun s => (Val a, s).

Definition bind {St R A B} (m : M St R A) (k : A -> M St R B) : M St R B :=
  fun s =>
    match m s with
    | (Val a, s') => k a s'
    | (Ret r, s') => (Ret r, s')
    | (Exc e, s') => (Exc e, s')
    end.

Definition return_ {St R A} (r : R) : M St R A := fun s => (Ret r, s).
Definition raise {St R A} (e : exn) : M St R A := fun s => (Exc e, s).

(** A library call that either raises or yields a value, state untouched. *)
Definition lift {St R A} (x : exn + A) : M St R A :=
  match x with
  | inl e => raise e
  | inr a => ret a
  end.

(** [try: body / except Exception as e: handler e]. *)
Definition try_except {St R A} (body : M St R A) (handler : exn -> M St R A)
  : M St R A :=
  fun s =>
    match body s with
    | (Exc e, s') => handler e s'
    | other => other
    end.

(** [try: body / finally: fin]: [fin] runs on every exit path; what it
    raises replaces whatever [body] was doing. *)
Definition try_finally {St R A} (body : M St R A) (fin : M St R unit)
  : M St R A :=
  fun s =>
    let (r, s') := body s in
    match fin s' with
    | (Val _, s'') => (r, s'')
    | (Ret r', s'') => (Ret r', s'')
    | (Exc e, s'') => (Exc e, s'')
    end.

(** The caller's view of a function body: the value returned (falling off
    the end returns the default) or the exception that escaped. *)
Definition call {St R} (body : M St R R) : St -> (exn + R) * St :=
  fun s =>
    match body s with
    | (Val r, s') => (inr r, s')
    | (Ret r, s') => (inr r, s')
    | (Exc e, s') => (inl e, s')
    end.

Declare Scope py_scope.
Delimit Scope py_scope with py.
Notation "x <- m ;; k" := (bind m (fun x => k))
  (at level 100, m at next level, right associativity) : py_scope.
Notation "m ;; k" := (bind m (fun _ => k))
  (at level 100, right associativity) : py_scope.
Local Open Scope py_scope.

(** ** The connection

    What the peer and the transport do is a script: [inbox] lists what
    successive reads will find, in order (a run of bytes that has arrived, or
    a reset), and its end is the peer's orderly close; [send_faults] says for
    each coming write whether it fails.  [trace] records every operation the
    program performed on the socket, oldest first. *)

Inductive segment : Type :=
| Data (payload : bytes)
| Reset.

Inductive io_event : Type :=
| EvSocket
| EvConnect (ok : bool)
| EvRecv (n : Z) (data : bytes)
| EvRecvErr (n : Z)
| EvSend (data : bytes)
| EvSendErr (data : bytes)
| EvClose.

Record Conn : Type := mkConn {
  inbox : list segment;
  send_faults : list bool;
  trace : list io_event
}.

(** What one [recv(n)], [n > 0], takes from the inbox: at most [n] bytes of
    the first run that has arrived, never waiting for more; nothing at all
    once the peer has closed. *)
Fixpoint deliver (n : nat) (inb : list segment) : (exn + bytes) * list segment :=
  match inb with
  | [] => (inr [], [])
  | Reset :: rest => (inl ConnectionResetError, rest)
  | Data [] :: rest => deliver n rest
  | Data bs :: rest =>
      (inr (take n bs),
       match drop n bs with
       | [] => rest
       | later => Data later :: rest
       end)
  end.

Definition conn_recv (n : Z) (c : Conn) : (exn + bytes) * Conn :=
  if n <=? 0 then
    (inr [], mkConn (inbox c) (send_faults c) (trace c ++ [EvRecv n []]))
  else
    match deliver (Z.to_nat n) (inbox c) with
    | (inr data, inb) =>
        (inr data, mkConn inb (send_faults c) (trace c ++ [EvRecv n data]))
    | (inl e, inb) =>
        (inl e, mkConn inb (send_faults c) (trace c ++ [EvRecvErr n]))
    end.

(** [send(data)]: the whole buffer is taken by the transport, or the call
    raises. *)
Definition conn_send (data : bytes) (c : Conn) : (exn + unit) * Conn :=
  match send_faults c with
  | true :: later =>
      (inl BrokenPipeError, mkConn (inbox c) later (trace c ++ [EvSendErr data]))
  | false :: later =>
      (inr tt, mkConn (inbox c) later (trace c ++ [EvSend data]))
  | [] =>
      (inr tt, mkConn (inbox c) [] (trace c ++ [EvSend data]))
  end.

Definition conn_close (c : Conn) : Conn :=
  mkConn (inbox c) (send_faults c) (trace c ++ [EvClose]).

(** Bytes that have arrived or will arrive before the peer's close. *)
Fixpoint pending (inb : list segment) : nat :=
  match inb with
  | [] => O
  | Data bs :: rest => (length bs + pending rest)%nat
  | Reset :: rest => pending rest
  end.

(** The bytes handed to [send], in order. *)
Fixpoint sent (tr : list io_event) : list bytes :=
  match tr with
  | [] => []
  | EvSend data :: tr' => data :: sent tr'
  | _ :: tr' => sent tr'
  end.

(** The read requests issued, in order: requested size and bytes returned
    (none when the read raised). *)
Fixpoint reads (tr : list io_event) : list (Z * bytes) :=
  match tr with
  | [] => []
  | EvRecv n data :: tr' => (n, data) :: reads tr'
  | EvRecvErr n :: tr' => (n, []) :: reads tr'
  | _ :: tr' => reads tr'
  end.

(** ** The file system of the receiving side

    A Linux host.  The map holds what is on disk under resolved names: the
    components joined by single separators, relative to the working
    directory, or from the root when the name begins with a separator.  The
    working directory, the root and the ancestors of the working directory
    are directories and need no entry.  [fs_open_wb] resolves the path it is
    given the way the kernel does, component by component, and returns the
    resolved name of the file it has opened; writes go to that file.

    Outside the model: symbolic links and hard links, access rights (the
    process may create, truncate and write wherever the directories exist),
    a disk that fills up, and names that reach an entry of the working
    directory by way of its ancestors or from the root.  Writing to an open
    file on the receiving side does not fail. *)

Inductive node : Type :=
| Dir
| File (content : bytes).

Abbreviation FS := (gmap (list Z) node).

Definition sep : Z := 47.   (* '/' *)

Definition NAME_MAX : Z := 255.
Definition PATH_MAX : Z := 4096.

(** Longest prefix without a separator, and what follows it. *)
Fixpoint span_nosep (p : pystr) : pystr * pystr :=
  match p with
  | [] => ([], [])
  | c :: p' =>
      if c =? sep then ([], p)
      else let (a, b) := span_nosep p' in (c :: a, b)
  end.

(** [os.path.basename]: what follows the last separator. *)
Definition basename (p : pystr) : pystr := rev (fst (span_nosep (rev p))).

(** [os.path.join(a, b)]. *)
Definition path_join (a b : pystr) : pystr :=
  match b with
  | c :: _ => if c =? sep then b else
                match List.last a sep =? sep with
                | true => a ++ b
                | false => a ++ sep :: b
                end
  | [] => if List.last a sep =? sep then a else a ++ [sep]
  end.

(** [os.makedirs(name, exist_ok=True)] for a one-component relative name. *)
Definition fs_makedirs (name : pystr) (fs : FS) : (exn + unit) * FS :=
  match fs !! name with
  | Some Dir => (inr tt, fs)
  | Some (File _) => (inl FileExistsError, fs)
  | None => (inr tt, <[name := Dir]> fs)
  end.

(** [os.fsencode]: UTF-8 with the [surrogateescape] error handler. *)
Definition fsencode_cp (c : Z) : option bytes :=
  if (0xDC80 <=? c) && (c <=? 0xDCFF) then Some [byte_of_Z (c - 0xDC00)]
  else utf8_encode_cp c.

Fixpoint fsencode (s : pystr) : option bytes :=
  match s with
  | [] => Some []
  | c :: s' =>
      match fsencode_cp c, fsencode s' with
      | Some e, Some r => Some (e ++ r)
      | _, _ => None
      end
  end.

Definition has_nul (p : pystr) : bool := existsb (Z.eqb 0) p.

(** Length in bytes of a path component. *)
Definition name_len (c : pystr) : Z :=
  match fsencode c with
  | Some b => len b
  | None => 0
  end.

(** [p.split('/')]. *)
Fixpoint split_sep (p : pystr) : list pystr :=
  match p with
  | [] => [[]]
  | c :: p' =>
      if c =? sep then [] :: split_sep p'
      else match split_sep p' with
           | comp :: rest => (c :: comp) :: rest
           | [] => [[c]]
           end
  end.

(** ['/'.join(comps)]. *)
Definition join_sep (comps : list pystr) : pystr :=
  match comps with
  | [] => []
  | c :: rest => c ++ concat (map (cons sep) rest)
  end.

(** The resolved name of the place reached from the root ([absolute]) or
    from the working directory through the directories [comps]. *)
Definition key_of (absolute : bool) (comps : list pystr) : pystr :=
  if absolute then sep :: join_sep comps else join_sep comps.

Definition dot : pystr := [46].
Definition dotdot : pystr := [46; 46].

(** The last component of a path that names a directory whatever is on
    disk: empty (the path ends in a separator or is the root), [.] or
    [..]. *)
Definition names_directory (b : pystr) : bool :=
  match b with
  | [] => true                                   (* trailing separator *)
  | [c] => c =? 46                               (* . *)
  | [c; d] => (c =? 46) && (d =? 46)             (* .. *)
  | _ => false
  end.

(** [..] from a directory: the root is its own parent; above the working
    directory each step adds one [..]. *)
Definition parent (absolute : bool) (cur : list pystr) : list pystr :=
  if absolute then removelast cur
  else if forallb (fun c => bool_decide (c = dotdot)) cur then cur ++ [dotdot]
       else removelast cur.

(** Path walk: from the directory [cur], through the components [comps],
    each of which has to lead to a directory. *)
Fixpoint walk (fs : FS) (absolute : bool) (cur : list pystr) (comps : list pystr)
  : exn + list pystr :=
  match comps with
  | [] => inr cur
  | c :: rest =>
      if bool_decide (c = []) || bool_decide (c = dot) then
        walk fs absolute cur rest
      else if bool_decide (c = dotdot) then
        walk fs absolute (parent absolute cur) rest
      else if NAME_MAX <? name_len c then inl OSError        (* ENAMETOOLONG *)
      else
        match fs !! key_of absolute (cur ++ [c]) with
        | Some Dir => walk fs absolute (cur ++ [c]) rest
        | Some (File _) => inl NotADirectoryError
        | None => inl FileNotFoundError
        end
  end.

Fixpoint drop_empty (comps : list pystr) : list pystr :=
  match comps with
  | [] :: rest => drop_empty rest
  | _ => comps
  end.

(** The components without the empty ones that trailing separators leave. *)
Definition strip_trailing (comps : list pystr) : list pystr :=
  rev (drop_empty (rev comps)).

(** [open(p, 'wb')]: creates the file or truncates it, and returns the
    resolved name of the open file.  In the order in which the interpreter
    and the kernel look at the path: the name has to be encodable, free of
    NUL, not empty and shorter than [PATH_MAX]; every component but the last
    leads to a directory; a last component that names a directory, or is
    followed by a separator, cannot be opened for writing; the last
    component is at most [NAME_MAX] bytes long and is not a directory. *)
Definition fs_open_wb (p : pystr) (fs : FS) : (exn + pystr) * FS :=
  match fsencode p with
  | None => (inl UnicodeEncodeError, fs)
  | Some encoded =>
      if has_nul p then (inl ValueError, fs)
      else if bool_decide (p = []) then (inl FileNotFoundError, fs)
      else if PATH_MAX <=? len encoded then (inl OSError, fs)    (* ENAMETOOLONG *)
      else
        let absolute := hd 0 p =? sep in
        let comps := split_sep p in
        let named := strip_trailing comps in
        match walk fs absolute [] (removelast named) with
        | inl e => (inl e, fs)
        | inr cur =>
            let name := List.last named [] in
            if names_directory name then (inl IsADirectoryError, fs)
            else if negb (length named =? length comps)%nat then
              (inl IsADirectoryError, fs)
            else if NAME_MAX <? name_len name then (inl OSError, fs)
            else
              let f := key_of absolute (cur ++ [name]) in
              match fs !! f with
              | Some Dir => (inl IsADirectoryError, fs)
              | _ => (inr f, <[f := File []]> fs)
              end
        end
  end.

(** [f.write(data)] on the open file [f]. *)
Definition fs_write (f : pystr) (data : bytes) (fs : FS) : FS :=
  match fs !! f with
  | Some (File content) => <[f := File (content ++ data)]> fs
  | _ => fs
  end.

(** ** The receiving side: [file_server.py] *)

Inductive msg : Type :=
| MsgConnection                                  (* [+] Connection established *)
| MsgNoData                                      (* [-] No data received *)
| MsgFilenameLength (n : Z)
| MsgReceiving (filename : pystr)
| MsgFileSize (n : Z)
| MsgProgress (bytes_received filesize : Z)
| MsgReceived (filepath : pystr)                 (* [+] File received successfully *)
| MsgError (e : exn)                             (* [-] Error *)
| MsgListening
| MsgShuttingDown.

Record World : Type := mkWorld {
  conn : Conn;
  fs : FS;
  console : list msg
}.

Definition on_conn {R A : Type} (op : Conn -> (exn + A) * Conn) : M World R A :=
  fun w =>
    match op (conn w) with
    | (inr a, c) => (Val a, mkWorld c (fs w) (console w))
    | (inl e, c) => (Exc e, mkWorld c (fs w) (console w))
    end.

Definition on_fs {R A : Type} (op : FS -> (exn + A) * FS) : M World R A :=
  fun w =>
    match op (fs w) with
    | (inr a, fs') => (Val a, mkWorld (conn w) fs' (console w))
    | (inl e, fs') => (Exc e, mkWorld (conn w) fs' (console w))
    end.

Definition recv {R : Type} (n : Z) : M World R bytes := on_conn (conn_recv n).
Definition send {R : Type} (data : bytes) : M World R unit := on_conn (conn_send data).
Definition close {R : Type} : M World R unit :=
  fun w => (Val tt, mkWorld (conn_close (conn w)) (fs w) (console w)).
Definition print {R : Type} (m : msg) : M World R unit :=
  fun w => (Val tt, mkWorld (conn w) (fs w) (console w ++ [m])).
Definition makedirs {R : Type} (name : pystr) : M World R unit := on_fs (fs_makedirs name).
Definition open_wb {R : Type} (p : pystr) : M World R pystr := on_fs (fs_open_wb p).
Definition write {R : Type} (f : pystr) (data : bytes) : M World R unit :=
  fun w => (Val tt, mkWorld (conn w) (fs_write f data (fs w)) (console w)).

Definition METADATA_OK : bytes := b_lit "METADATA_OK".
Definition OK : bytes := b_lit "OK".
Definition ERROR : bytes := b_lit "ERROR".
Definition received_files : pystr := str_lit "received_files".

Lemma deliver_pending n inb b data inb' :
  deliver n inb = (inr (b :: data), inb') -> (pending inb' < pending inb)%nat.
Proof.
  induction inb as [|[bs|] rest IH]; cbn [deliver]; intros H.
  - discriminate.
  - destruct bs as [|b0 bs]; [cbn [pending]; simpl; auto|].
    injection H as Ht <-.
    assert (Hlen : (length (take n (b0 :: bs)) + length (drop n (b0 :: bs))
                    = length (b0 :: bs))%nat)
      by (rewrite <- length_app, take_drop; reflexivity).
    rewrite Ht in Hlen. cbn [length] in Hlen.
    destruct (drop n (b0 :: bs)) as [|x later]; cbn [pending length] in *; lia.
  - discriminate.
Qed.

Lemma recv_pending {R : Type} n w b data w' :
  @recv R n w = (Val (b :: data), w') ->
  (pending (inbox (conn w')) < pending (inbox (conn w)))%nat.
Proof.
  unfold recv, on_conn, conn_recv. intros H.
  destruct (n <=? 0); [discriminate|].
  destruct (deliver (Z.to_nat n) (inbox (conn w))) as [[e|d] inb] eqn:E;
    [discriminate|].
  injection H as -> <-. cbn. eapply deliver_pending; eauto.
Qed.

(** Keeps the equation when a clause matches on a computed value. *)
Definition inspect {A : Type} (x : A) : {y : A | x = y} := exist _ x eq_refl.

(** The payload loop of [receive_file] (the body of the [with] block), with
    [f] the open file:
<<
    while bytes_received < filesize:
        chunk_size = min(4096, filesize - bytes_received)
        data = conn.recv(chunk_size)
        if not data:
            break
        f.write(data)
        bytes_received += len(data)
        print(progress)
>>
    Every turn that does not leave the loop has consumed at least one byte
    that was on its way, so the loop is total. *)
Equations? recv_loop (f : pystr) (filesize bytes_received : Z) (w : World)
  : res unit unit * World by wf (pending (inbox (conn w))) lt :=
recv_loop f filesize bytes_received w with bytes_received <? filesize := {
  | false => (Val tt, w)
  | true with inspect (@recv unit (Z.min 4096 (filesize - bytes_received)) w) := {
      | exist _ (Exc e, w1) _ => (Exc e, w1)
      | exist _ (Ret r, w1) _ => (Ret r, w1)
      | exist _ (Val [], w1) _ => (Val tt, w1)
      | exist _ (Val (b :: data'), w1) E =>
          let data := b :: data' in
          let bytes_received' := bytes_received + len data in
          let w2 := mkWorld (conn w1) (fs_write f data (fs w1))
                      (console w1 ++ [MsgProgress bytes_received' filesize]) in
          recv_loop f filesize bytes_received' w2 } }.
Proof.
  cbn. eapply recv_pending; eauto.
Qed.

(** Lines 10-26 of [receive_file]: the metadata header. *)
Definition recv_header : M World unit (pystr * Z) :=
  filename_len_data <- recv 4 ;;
  match filename_len_data with
  | [] => print MsgNoData ;; return_ tt
  | _ =>
      filename_len <- lift (unpack_I filename_len_data) ;;
      print (MsgFilenameLength filename_len) ;;
      name_data <- recv filename_len ;;
      filename <- lift (match utf8_decode name_data with
                        | Some s => inr s
                        | None => inl UnicodeDecodeError
                        end) ;;
      print (MsgReceiving filename) ;;
      filesize_data <- recv 8 ;;
      filesize <- lift (unpack_Q filesize_data) ;;
      print (MsgFileSize filesize) ;;
      ret (filename, filesize)
  end.

(** Lines 28-57 of [receive_file]: acknowledge the metadata, make sure the
    output directory is there, store the payload, acknowledge the file. *)
Definition receive_payload (filename : pystr) (filesize : Z) : M World unit unit :=
  send METADATA_OK ;;
  makedirs received_files ;;
  let filepath := path_join received_files filename in
  f <- open_wb filepath ;;
  recv_loop f filesize 0 ;;
  print (MsgReceived filepath) ;;
  send OK.

(** The [try] block of [receive_file]. *)
Definition receive_file_try : M World unit unit :=
  header <- recv_header ;;
  let (filename, filesize) := header : pystr * Z in
  receive_payload filename filesize.

(** [receive_file(conn, addr)]: what the caller gets back and the state the
    session leaves behind. *)
Definition receive_file : World -> (exn + unit) * World :=
  call (print MsgConnection ;;
        try_finally
          (try_except receive_file_try
             (fun e => print (MsgError e) ;; send ERROR))
          close).

(** ** The accept loop: [start_server], lines 82-93 *)

Inductive accepted : Type :=
| Connection (c : Conn)      (* [accept] returns a new connection *)
| Interrupt.                 (* KeyboardInterrupt while waiting in [accept] *)

Inductive listener : Type :=
| Accepting                  (* blocked in [accept], no client in sight *)
| ShutDown                   (* interrupted; listening socket closed *)
| Crashed (e : exn).         (* an exception left [start_server]; socket closed *)

Record Server : Type := mkServer {
  srv_fs : FS;
  srv_console : list msg;
  served : list Conn           (* the connections handed to [receive_file] *)
}.

Fixpoint accept_loop (arrivals : list accepted) (s : Server) : listener * Server :=
  match arrivals with
  | [] => (Accepting, s)
  | Interrupt :: _ =>
      (ShutDown, mkServer (srv_fs s) (srv_console s ++ [MsgShuttingDown]) (served s))
  | Connection c :: later =>
      match receive_file (mkWorld c (srv_fs s) (srv_console s)) with
      | (inr _, w) =>
          accept_loop later (mkServer (fs w) (console w) (served s ++ [conn w]))
      | (inl e, w) =>
          (Crashed e, mkServer (fs w) (console w) (served s ++ [conn w]))
      end
  end.

Definition start_server (arrivals : list accepted) (fs0 : FS) : listener * Server :=
  accept_loop arrivals (mkServer fs0 [MsgListening] []).

(** ** The sending side: [file_client.py]

    The sender looks at its source three times: [os.path.exists],
    [os.path.getsize] and [open(filename, 'rb')].  The file may change in
    between, so the three answers are given separately.  Once open, the
    source is a regular file: [f.read(4096)] returns the next 4096 bytes,
    fewer only at its end.  Creating the socket object does not fail. *)

Record Source : Type := mkSource {
  src_exists : bool;          (* os.path.exists(filename) *)
  src_getsize : exn + Z;      (* os.path.getsize(filename) *)
  src_open : exn + bytes      (* open(filename, 'rb'): the bytes readable from it *)
}.

Inductive connect_result : Type :=
| Connected
| Refused                     (* ConnectionRefusedError *)
| Unreachable.                (* any other OSError *)

Definition io {R A : Type} (op : Conn -> (exn + A) * Conn) : M Conn R A :=
  fun c =>
    match op c with
    | (inr a, c') => (Val a, c')
    | (inl e, c') => (Exc e, c')
    end.

Definition log_event {R : Type} (e : io_event) : M Conn R unit :=
  fun c => (Val tt, mkConn (inbox c) (send_faults c) (trace c ++ [e])).

Definition socket {R : Type} : M Conn R unit := log_event EvSocket.

Definition connect {R : Type} (link : connect_result) : M Conn R unit :=
  match link with
  | Connected => log_event (EvConnect true)
  | Refused => log_event (EvConnect false) ;; raise ConnectionRefusedError
  | Unreachable => log_event (EvConnect false) ;; raise OSError
  end.

Definition sock_recv {R : Type} (n : Z) : M Conn R bytes := io (conn_recv n).
Definition sock_send {R : Type} (data : bytes) : M Conn R unit := io (conn_send data).
Definition sock_close {R : Type} : M Conn R unit := log_event EvClose.

(** The streaming loop of [send_file], with [f] what is still unread of the
    source:
<<
    while bytes_sent < filesize:
        chunk = f.read(4096)
        if not chunk:
            break
        client_socket.send(chunk)
        bytes_sent += len(chunk)
>> *)
Equations? send_loop (f : bytes) (filesize bytes_sent : Z) (c : Conn)
  : res bool unit * Conn by wf (length f) lt :=
send_loop f filesize bytes_sent c with bytes_sent <? filesize := {
  | false => (Val tt, c)
  | true with inspect (take 4096 f) := {
      | exist _ [] _ => (Val tt, c)
      | exist _ (b :: chunk') E with @sock_send bool (b :: chunk') c := {
          | (Val _, c1) =>
              send_loop (drop 4096 f) filesize (bytes_sent + len (b :: chunk')) c1
          | (Ret r, c1) => (Ret r, c1)
          | (Exc e, c1) => (Exc e, c1) } } }.
Proof.
  assert (Hlen : (length (take 4096 f) + length (drop 4096 f) = length f)%nat)
    by (rewrite <- length_app, take_drop; reflexivity).
  rewrite E in Hlen. cbn [length] in Hlen. lia.
Qed.

(** Lines 28-39 of [send_file]: the metadata header, one write per field. *)
Definition send_header (name : pystr) (filesize : Z) : M Conn bool unit :=
  filename_bytes <- lift (match utf8_encode name with
                          | Some e => inr e
                          | None => inl UnicodeEncodeError
                          end) ;;
  let filename_len := len filename_bytes in
  packed_len <- lift (pack_I filename_len) ;;
  sock_send packed_len ;;
  sock_send filename_bytes ;;
  packed_size <- lift (pack_Q filesize) ;;
  sock_send packed_size.

(** Lines 49-75 of [send_file]: stream the file, then wait for the final
    acknowledgment. *)
Definition send_payload (src : Source) (filesize : Z) : M Conn bool bool :=
  f <- lift (src_open src) ;;
  send_loop f filesize 0 ;;
  final_ack <- sock_recv 1024 ;;
  if decide (final_ack = OK) then return_ true else return_ false.

(** The [try] block of [send_file]. *)
Definition send_file_try (filename : pystr) (src : Source)
    (link : connect_result) (filesize : Z) : M Conn bool bool :=
  socket ;;
  connect link ;;
  send_header (basename filename) filesize ;;
  metadata_ack <- sock_recv 1024 ;;
  if decide (metadata_ack = METADATA_OK) then send_payload src filesize
  else return_ false.

(** [send_file(filename, host, port)], against a peer that will answer with
    [replies] and make the writes fail as [faults] says.  The socket is the
    function's own, so its trace starts empty. *)
Definition send_file (filename : pystr) (src : Source) (link : connect_result)
    (replies : list segment) (faults : list bool) : (exn + bool) * Conn :=
  call (if negb (src_exists src) then return_ false
        else
          filesize <- lift (src_getsize src) ;;
          try_finally
            (try_except (send_file_try filename src link filesize)
               (fun e =>
                  match e with
                  | ConnectionRefusedError => return_ false
                  | _ => return_ false
                  end))
            sock_close)
    (mkConn replies faults []).

(** ** Observations on a run of the receive loop *)

(** Every read asked for [min(4096, filesize - bytes_received)] bytes, which
    is at least one and at most what is still owed, and got no more than it
    asked for. *)
Fixpoint bounded_reads (filesize bytes_received : Z) (rs : list (Z * bytes)) : bool :=
  match rs with
  | [] => true
  | (n, data) :: rs' =>
      (n =? Z.min 4096 (filesize - bytes_received))
      && (0 <? n) && (n <=? filesize - bytes_received)
      && (len data <=? n)
      && bounded_reads filesize (bytes_received + len data) rs'
  end.

(** The bytes the reads returned, in order. *)
Definition received (tr : list io_event) : bytes := concat (map snd (reads tr)).

(** The successive values of [bytes_received], as the progress line shows
    them. *)
Fixpoint progress_values (ms : list msg) : list Z :=
  match ms with
  | [] => []
  | MsgProgress bytes_received _ :: ms' => bytes_received :: progress_values ms'
  | _ :: ms' => progress_values ms'
  end.

Fixpoint nondecreasing_from (lo : Z) (l : list Z) : bool :=
  match l with
  | [] => true
  | x :: l' => (lo <=? x) && nondecreasing_from x l'
  end.

(** ** The XML-RPC variant: [FileTransferServer.__init__]

    The constructor sets [received_dir] and creates the directory the same
    way. *)
Definition FileTransferServer_init (fs0 : FS) : (exn + pystr) * FS :=
  match fs_makedirs received_files fs0 with
  | (inr _, fs1) => (inr received_files, fs1)
  | (inl e, fs1) => (inl e, fs1)
  end.

(** ** Observations on the sender's trace *)

(** What the first completed read returned: the token at the metadata
    checkpoint. *)
Fixpoint first_read (tr : list io_event) : option bytes :=
  match tr with
  | [] => None
  | EvRecv _ data :: _ => Some data
  | _ :: tr' => first_read tr'
  end.

(** What the program did on the socket after that read. *)
Fixpoint after_first_read (tr : list io_event) : list io_event :=
  match tr with
  | [] => []
  | EvRecv _ _ :: tr' => tr'
  | _ :: tr' => after_first_read tr'
  end.

(** ** Reads that get what they ask for *)

(** On inbox [inb], a read asking for [len bs] bytes returns exactly [bs]
    and leaves [inb']. *)
Definition offers (inb : list segment) (bs : bytes) (inb' : list segment) : Prop :=
  forall faults tr,
    conn_recv (len bs) (mkConn inb faults tr)
    = (inr bs, mkConn inb' faults (tr ++ [EvRecv (len bs) bs])).

(** ** Scenarios *)

Definition demo_path : pystr := str_lit "received_files/a.b".

Definition demo_fragments : list bytes := [b_lit "he"; []; b_lit "llo"].

(** The file is open and empty; after the payload comes something else. *)
Definition demo_world : World :=
  mkWorld (mkConn (map Data demo_fragments ++ [Data (b_lit "next")]) [] [])
          {[ demo_path := File [] ]} [].

(** A session starts on an accepted connection, here with nothing on disk
    and an empty console. *)
Definition session (c : Conn) : World := mkWorld c ∅ [].

(** The header for name [a.b] and size 5, one segment per field as the
    sender writes it. *)
Definition header_a_b_5 : list segment :=
  [Data (be_bytes 4 3); Data (b_lit "a.b"); Data (be_bytes 8 5)].

(** The sender delivers 2 of the 5 declared bytes and closes. *)
Definition early_close : Conn :=
  mkConn (header_a_b_5 ++ [Data (b_lit "he")]) [] [].

(** The full header and payload arrive, but the length field comes in two
    runs of two bytes. *)
Definition split_length_field : Conn :=
  mkConn ([Data (take 2 (be_bytes 4 3)); Data (drop 2 (be_bytes 4 3));
           Data (b_lit "a.b"); Data (be_bytes 8 5); Data (b_lit "hello")]) [] [].

(** The peer closes two bytes before the end of the header; the name field
    arrives in two runs, the second together with what there is of the size
    field. *)
Definition truncated_header : Conn :=
  mkConn ([Data (be_bytes 4 3); Data (b_lit "a");
           Data (b_lit ".b" ++ take 6 (be_bytes 8 5))]) [] [].

(** The peer resets the connection at once: the first read raises, and so
    does the write that reports it. *)
Definition reset_by_peer : Conn := mkConn [Reset] [true] [].

(** A well-behaved client: header and the five payload bytes. *)
Definition good_client : Conn :=
  mkConn (header_a_b_5 ++ [Data (b_lit "hello")]) [] [].

(** ** Further observations *)

(** No coming write is scripted to fail. *)
Definition no_fault (faults : list bool) : bool := forallb negb faults.

(** An arrival that is a client whose connection takes every write. *)
Definition well_behaved (a : accepted) : bool :=
  match a with
  | Connection c => no_fault (send_faults c)
  | Interrupt => false
  end.

(** The name has no separator in it. *)
Definition no_sep (p : pystr) : bool := forallb (fun c => negb (c =? sep)) p.

(** A name that can be a file directly inside a directory: no separator,
    not empty, not [.] and not [..], no NUL, and at most [NAME_MAX] bytes
    once encoded. *)
Definition plain_name (name : pystr) : bool :=
  no_sep name && negb (names_directory name) && negb (has_nul name)
  && match fsencode name with
     | Some b => len b <=? NAME_MAX
     | None => false
     end.

(** The three header fields arrive whole, one read each, and leave
    [inb']. *)
Definition header_arrives (inb : list segment) (len_field name_field size_field : bytes)
    (inb' : list segment) : Prop :=
  exists inb1 inb2,
    offers inb len_field inb1
    /\ offers inb1 name_field inb2
    /\ offers inb2 size_field inb'.

(** How far into its source the streaming loop of the sender can go for a
    declared size: the size rounded up to a whole number of 4096-byte reads. *)
Definition read_span (filesize : Z) : Z :=
  if filesize <=? 0 then 0 else ((filesize + 4095) / 4096) * 4096.

(** A chunk as [f.read(4096)] yields one: not empty, at most 4096 bytes. *)
Definition is_chunk (chunk : bytes) : bool :=
  (0 <? len chunk) && (len chunk <=? 4096).


(** ** The XML-RPC variant: [FileTransferServer.upload_file]

    The method decodes the base64 text, joins the name it was given to
    [received_dir], opens that path for writing, writes the data and prints
    a line, all inside one [try]; an exception raised anywhere in it is
    printed and becomes an error reply.  The outcome of [base64.b64decode]
    on the text is an argument: the decoded bytes, or [None] when the call
    raises [binascii.Error].  The reply is the dictionary returned
    ([message] is determined by the other fields); the console line is kept
    without its time stamp.

    What the host does with a write and with a line for the console is
    part of the state, and does not change from one call to the next:
    [host_write f data] is [None] when [f.write(data)] and the closing of
    [f] succeed, and [Some (k, e)] when [e] is raised with the first [k]
    bytes of [data] in the file; [host_print m] is [Some e] when printing
    [m] raises [e]. *)
Inductive upload_reply : Type :=
| UploadSuccess (filename : pystr) (size : Z) (path : pystr)
| UploadError (e : exn).

Inductive rpc_msg : Type :=
| RpcReceived (filename : pystr) (filesize : Z)  (* [time] Received file: .. (.. bytes) *)
| RpcError (e : exn).                            (* [-] Error uploading file: .. *)

Record Host : Type := mkHost {
  host_fs : FS;
  host_console : list rpc_msg;
  host_write : pystr -> bytes -> option (nat * exn);
  host_print : rpc_msg -> option exn
}.

Definition host_store (fs' : FS) (h : Host) : Host :=
  mkHost fs' (host_console h) (host_write h) (host_print h).

(** [print(m)] on the server's console. *)
Definition rpc_print (m : rpc_msg) (h : Host) : (exn + unit) * Host :=
  match host_print h m with
  | Some e => (inl e, h)
  | None =>
      (inr tt, mkHost (host_fs h) (host_console h ++ [m]) (host_write h) (host_print h))
  end.

(** The [except Exception as e] block, lines 54-60: it prints, then
    returns the error reply; an exception raised by its [print] leaves the
    method. *)
Definition upload_failed (e : exn) (h : Host) : (exn + upload_reply) * Host :=
  match rpc_print (RpcError e) h with
  | (inl e', h') => (inl e', h')
  | (inr _, h') => (inr (UploadError e), h')
  end.

Definition upload_file (received_dir filename : pystr) (b64decode : option bytes)
    (h : Host) : (exn + upload_reply) * Host :=
  match b64decode with
  | None => upload_failed BinasciiError h
  | Some file_data =>
      let filepath := path_join received_dir filename in
      match fs_open_wb filepath (host_fs h) with
      | (inl e, fs1) => upload_failed e (host_store fs1 h)
      | (inr f, fs1) =>
          match host_write h f file_data with
          | Some (k, e) =>
              upload_failed e (host_store (fs_write f (take k file_data) fs1) h)
          | None =>
              let filesize := len file_data in
              match rpc_print (RpcReceived filename filesize)
                      (host_store (fs_write f file_data fs1) h) with
              | (inl e, h') => upload_failed e h'
              | (inr _, h') => (inr (UploadSuccess filename filesize filepath), h')
              end
          end
      end
  end.

(** * Proofs *)

(** ** Facts about the codecs *)

Lemma Z_of_byte_range (b : byte) : 0 <= Z_of_byte b < 256.
Proof.
  unfold Z_of_byte. pose proof (Byte.to_N_bounded b). lia.
Qed.

Lemma Z_of_byte_of_Z (z : Z) : 0 <= z < 256 -> Z_of_byte (byte_of_Z z) = z.
Proof.
  intros Hz. unfold Z_of_byte, byte_of_Z.
  destruct (Byte.of_N (Z.to_N z)) as [b|] eqn:E.
  - apply Byte.to_of_N in E. rewrite E. lia.
  - apply Byte.of_N_None_iff in E. lia.
Qed.

Lemma byte_of_Z_of_byte (b : byte) : byte_of_Z (Z_of_byte b) = b.
Proof.
  unfold Z_of_byte, byte_of_Z. rewrite N2Z.id, Byte.of_to_N. reflexivity.
Qed.

Lemma be_bytes_length k n : length (be_bytes k n) = k.
Proof.
  revert n. induction k as [|k IH]; intros n; simpl; [reflexivity|].
  rewrite length_app, IH. simpl. lia.
Qed.

Lemma be_value_snoc bs b : be_value (bs ++ [b]) = be_value bs * 256 + Z_of_byte b.
Proof. unfold be_value. rewrite fold_left_app. reflexivity. Qed.

Lemma be_value_be_bytes k n :
  0 <= n < 256 ^ Z.of_nat k -> be_value (be_bytes k n) = n.
Proof.
  revert n. induction k as [|k IH]; intros n Hn.
  - simpl in *. unfold be_value. simpl. lia.
  - cbn [be_bytes]. rewrite be_value_snoc.
    rewrite Nat2Z.inj_succ, Z.pow_succ_r in Hn by lia.
    rewrite IH, Z_of_byte_of_Z.
    + pose proof (Z.div_mod n 256). lia.
    + apply Z.mod_pos_bound. lia.
    + split; [apply Z.div_pos; lia | apply Z.div_lt_upper_bound; lia].
Qed.

Lemma unpack_pack_uint k n packed :
  pack_uint k n = inr packed -> unpack_uint k packed = inr n.
Proof.
  unfold pack_uint, unpack_uint. intros H.
  destruct ((0 <=? n) && (n <? 256 ^ Z.of_nat k)) eqn:E; [|discriminate].
  injection H as <-. rewrite be_bytes_length.
  destruct (decide (k = k)) as [_|]; [|contradiction].
  f_equal. apply be_value_be_bytes.
  apply andb_true_iff in E. lia.
Qed.

(** Decoding what the encoder produced for one code point gives the code
    point back and continues with the rest of the buffer. *)
Lemma utf8_decode_encode_cp c e rest :
  utf8_encode_cp c = Some e ->
  utf8_decode (e ++ rest) = cons_to c (utf8_decode rest).
Proof.
  unfold utf8_encode_cp. intros H.
  repeat match type of H with
         | (if ?b then _ else _) = _ => destruct b eqn:?
         end; try discriminate; injection H as <-;
  repeat match goal with
         | E : (_ <? _) = true |- _ => apply Z.ltb_lt in E
         | E : (_ <? _) = false |- _ => apply Z.ltb_ge in E
         | E : (_ && _) = false |- _ => apply andb_false_iff in E
         end.
  - (* one byte *)
    cbn [app utf8_decode]. rewrite Z_of_byte_of_Z by lia.
    destruct (Z.ltb_spec c 128); [reflexivity | lia].
  - (* two bytes *)
    cbn [app utf8_decode]. unfold is_cont, cont_bits.
    pose proof (Z.div_mod c 64 ltac:(lia)).
    pose proof (Z.mod_pos_bound c 64 ltac:(lia)).
    assert (2 <= c / 64 < 32)
      by (split; [apply Z.div_le_lower_bound | apply Z.div_lt_upper_bound]; lia).
    rewrite !Z_of_byte_of_Z by lia.
    repeat match goal with
           | |- context [?a <? ?b] => destruct (Z.ltb_spec a b); try lia
           | |- context [?a <=? ?b] => destruct (Z.leb_spec a b); try lia
           end.
    cbn [andb]. f_equal. lia.
  - (* three bytes *)
    cbn [app utf8_decode]. unfold is_cont, cont_bits.
    pose proof (Z.div_mod c 64 ltac:(lia)).
    pose proof (Z.mod_pos_bound c 64 ltac:(lia)).
    pose proof (Z.div_mod (c / 64) 64 ltac:(lia)).
    pose proof (Z.mod_pos_bound (c / 64) 64 ltac:(lia)).
    assert (c / 4096 = c / 64 / 64) as E4096 by (rewrite Z.div_div by lia; reflexivity).
    assert (0 <= c / 4096 < 16)
      by (split; [apply Z.div_pos | apply Z.div_lt_upper_bound]; lia).
    rewrite !Z_of_byte_of_Z by lia.
    assert ((224 + c / 4096 - 224) * 4096 + (128 + (c / 64) mod 64 - 128) * 64
            + (128 + c mod 64 - 128) = c) as -> by lia.
    repeat match goal with
           | |- context [?a <? ?b] => destruct (Z.ltb_spec a b); try lia
           | |- context [?a <=? ?b] => destruct (Z.leb_spec a b); try lia
           end; cbn [andb negb]; try reflexivity;
      match goal with E : _ \/ _ |- _ => destruct E as [E|E] end;
      try (apply Z.leb_gt in E); try (apply Z.leb_gt in E); lia.
  - (* four bytes *)
    cbn [app utf8_decode]. unfold is_cont, cont_bits.
    pose proof (Z.div_mod c 64 ltac:(lia)).
    pose proof (Z.mod_pos_bound c 64 ltac:(lia)).
    pose proof (Z.div_mod (c / 64) 64 ltac:(lia)).
    pose proof (Z.mod_pos_bound (c / 64) 64 ltac:(lia)).
    pose proof (Z.div_mod (c / 4096) 64 ltac:(lia)).
    pose proof (Z.mod_pos_bound (c / 4096) 64 ltac:(lia)).
    assert (c / 4096 = c / 64 / 64) as E4096 by (rewrite Z.div_div by lia; reflexivity).
    assert (c / 262144 = c / 4096 / 64) as E262144 by (rewrite Z.div_div by lia; reflexivity).
    assert (0 <= c / 262144 < 5)
      by (split; [apply Z.div_pos | apply Z.div_lt_upper_bound]; lia).
    rewrite !Z_of_byte_of_Z by lia.
    assert ((240 + c / 262144 - 240) * 262144
            + (128 + (c / 4096) mod 64 - 128) * 4096
            + (128 + (c / 64) mod 64 - 128) * 64
            + (128 + c mod 64 - 128) = c) as -> by lia.
    repeat match goal with
           | |- context [?a <? ?b] => destruct (Z.ltb_spec a b); try lia
           | |- context [?a <=? ?b] => destruct (Z.leb_spec a b); try lia
           end.
    reflexivity.
Qed.

Lemma utf8_decode_encode s e :
  utf8_encode s = Some e -> utf8_decode e = Some s.
Proof.
  revert e. induction s as [|c s IH]; intros e H; cbn [utf8_encode] in H.
  - injection H as <-. reflexivity.
  - destruct (utf8_encode_cp c) as [ec|] eqn:Ec; [|discriminate].
    destruct (utf8_encode s) as [es|] eqn:Es; [|discriminate].
    injection H as <-.
    rewrite (utf8_decode_encode_cp _ _ _ Ec), (IH _ eq_refl). reflexivity.
Qed.

(** ** The loops, one turn at a time *)

Lemma recv_loop_eq filepath filesize bytes_received w :
  recv_loop filepath filesize bytes_received w =
  if bytes_received <? filesize then
    match @recv unit (Z.min 4096 (filesize - bytes_received)) w with
    | (Val [], w1) => (Val tt, w1)
    | (Val data, w1) =>
        recv_loop filepath filesize (bytes_received + len data)
          (mkWorld (conn w1) (fs_write filepath data (fs w1))
             (console w1 ++ [MsgProgress (bytes_received + len data) filesize]))
    | (Ret r, w1) => (Ret r, w1)
    | (Exc e, w1) => (Exc e, w1)
    end
  else (Val tt, w).
Proof.
  simp recv_loop.
  destruct (bytes_received <? filesize); simp recv_loop; [|reflexivity].
  destruct (inspect _) as [[[[|b d]|r|e] w1] E];
    unfold recv_loop_unfold_clause_1_clause_2; rewrite E; reflexivity.
Qed.

Lemma send_loop_eq f filesize bytes_sent c :
  send_loop f filesize bytes_sent c =
  if bytes_sent <? filesize then
    match take 4096 f with
    | [] => (Val tt, c)
    | chunk =>
        match @sock_send bool chunk c with
        | (Val _, c1) => send_loop (drop 4096 f) filesize (bytes_sent + len chunk) c1
        | (Ret r, c1) => (Ret r, c1)
        | (Exc e, c1) => (Exc e, c1)
        end
    end
  else (Val tt, c).
Proof.
  simp send_loop.
  destruct (bytes_sent <? filesize); simp send_loop; [|reflexivity].
  destruct (inspect _) as [[|b d] E]; unfold send_loop_unfold_clause_1_clause_2.
  - rewrite E. reflexivity.
  - unfold send_loop_unfold_clause_1_clause_2_clause_2.
    destruct (sock_send (b :: d) c) as [[a|r|e] c1] eqn:Es; rewrite E, Es;
      reflexivity.
Qed.

(** ** What a read does to the world *)

Lemma deliver_length n inb d inb' :
  deliver n inb = (inr d, inb') -> (length d <= n)%nat.
Proof.
  induction inb as [|[bs|] rest IH]; cbn [deliver]; intros H.
  - injection H as <- _. cbn. lia.
  - destruct bs as [|b0 bs]; [auto|].
    injection H as <- _. rewrite length_take. lia.
  - discriminate.
Qed.

Lemma recv_inv {R : Type} n w (r : res R bytes) w1 :
  recv n w = (r, w1) ->
  fs w1 = fs w /\ console w1 = console w /\
  send_faults (conn w1) = send_faults (conn w) /\
  match r with
  | Val data =>
      trace (conn w1) = trace (conn w) ++ [EvRecv n data] /\ len data <= Z.max 0 n
  | Exc e => trace (conn w1) = trace (conn w) ++ [EvRecvErr n]
  | Ret _ => False
  end.
Proof.
  unfold recv, on_conn, conn_recv. intros H.
  destruct (Z.leb_spec n 0).
  - injection H as <- <-. cbn. repeat split; unfold len; cbn; lia.
  - destruct (deliver (Z.to_nat n) (inbox (conn w))) as [[e|d] inb] eqn:E;
      injection H as <- <-; cbn; repeat split.
    apply deliver_length in E. unfold len. lia.
Qed.

(** Reading from a run of fragments that still holds payload: the read gets
    a non-empty prefix of the payload, never more than asked for, and leaves
    the rest of it in the inbox. *)
Lemma deliver_frags n frags rest :
  (0 < n)%nat -> concat frags <> [] ->
  exists d frags',
    deliver n (map Data frags ++ rest) = (inr d, map Data frags' ++ rest)
    /\ d <> [] /\ (length d <= n)%nat /\ concat frags = d ++ concat frags'.
Proof.
  intros Hn. induction frags as [|[|b bs] frags IH]; cbn [map app deliver concat].
  - intros H. contradiction.
  - intros H. apply IH, H.
  - intros _. exists (take n (b :: bs)).
    destruct (drop n (b :: bs)) as [|x later] eqn:Ed.
    + exists frags. repeat split.
      * destruct n; [lia | discriminate].
      * rewrite length_take. lia.
      * pose proof (take_drop n (b :: bs)) as Htd.
        rewrite Ed, app_nil_r in Htd. rewrite Htd. reflexivity.
    + exists ((x :: later) :: frags). repeat split.
      * destruct n; [lia | discriminate].
      * rewrite length_take. lia.
      * cbn [concat]. rewrite <- Ed, app_assoc, take_drop. reflexivity.
Qed.

Lemma fs_write_nil p fs0 : fs_write p [] fs0 = fs0.
Proof.
  unfold fs_write. destruct (fs0 !! p) as [[|c]|] eqn:E; try reflexivity.
  rewrite app_nil_r. apply insert_id, E.
Qed.

Lemma fs_write_app p a b fs0 :
  fs_write p (a ++ b) fs0 = fs_write p b (fs_write p a fs0).
Proof.
  unfold fs_write at 1 3. destruct (fs0 !! p) as [[|c]|] eqn:E.
  - unfold fs_write. rewrite E. reflexivity.
  - unfold fs_write. rewrite lookup_insert_eq, insert_insert_eq, app_assoc.
    reflexivity.
  - unfold fs_write. rewrite E. reflexivity.
Qed.

Lemma fs_write_other p q data fs0 : p <> q -> fs_write p data fs0 !! q = fs0 !! q.
Proof.
  intros Hne. unfold fs_write. destruct (fs0 !! p) as [[|c]|]; try reflexivity.
  apply lookup_insert_ne, Hne.
Qed.

Lemma len_app {A} (a b : list A) : len (a ++ b) = len a + len b.
Proof. unfold len. rewrite length_app. lia. Qed.

Lemma len_nonneg {A} (a : list A) : 0 <= len a.
Proof. unfold len. lia. Qed.

Lemma last_cons_default {A} (x : A) l a b :
  List.last (x :: l) a = List.last (x :: l) b.
Proof.
  revert x. induction l as [|y l IH]; intros x; [reflexivity|].
  change (List.last (y :: l) a = List.last (y :: l) b). apply IH.
Qed.

Ltac loop_done :=
  first [ assumption | reflexivity | lia | unfold len; cbn; lia
        | left; reflexivity | right; eauto ].

(** What every run of the receive loop satisfies, whatever the transport
    does: the reads are bounded by what is owed, the counter never goes
    down and never passes the declared size, and the file grows by exactly
    the bytes received. *)
Lemma recv_loop_inv filepath filesize m :
  forall bytes_received w r w',
    pending (inbox (conn w)) = m ->
    bytes_received <= filesize ->
    recv_loop filepath filesize bytes_received w = (r, w') ->
    exists evs msgs,
      trace (conn w') = trace (conn w) ++ evs
      /\ send_faults (conn w') = send_faults (conn w)
      /\ sent evs = []
      /\ bounded_reads filesize bytes_received (reads evs) = true
      /\ console w' = console w ++ msgs
      /\ nondecreasing_from bytes_received (progress_values msgs) = true
      /\ List.last (progress_values msgs) bytes_received
         = bytes_received + len (received evs)
      /\ bytes_received + len (received evs) <= filesize
      /\ fs w' = fs_write filepath (received evs) (fs w)
      /\ (r = Val tt \/ exists e, r = Exc e).
Proof.
  induction m as [m IH] using lt_wf_ind.
  intros br w r w' Hm Hle. rewrite recv_loop_eq.
  destruct (Z.ltb_spec br filesize) as [Hlt|Hge].
  2:{ intros H. injection H as <- <-. exists [], [].
      rewrite !app_nil_r. unfold received. cbn.
      rewrite fs_write_nil.
      repeat split; loop_done. }
  set (n := Z.min 4096 (filesize - br)).
  assert (Hn : 0 < n <= filesize - br) by (unfold n; lia).
  destruct (recv n w) as [r0 w1] eqn:Er.
  destruct (recv_inv _ _ _ _ Er) as (Hfs & Hco & Hsf & Hr0).
  destruct r0 as [[|b d]|r0|e].
  - (* the peer has closed: break *)
    intros H. injection H as <- <-. destruct Hr0 as [Htr _].
    exists [EvRecv n []], []. unfold received. cbn.
    rewrite app_nil_r, fs_write_nil.
    fold n. replace (n =? n) with true by (symmetry; apply Z.eqb_refl).
    destruct (Z.ltb_spec 0 n); [|lia].
    destruct (Z.leb_spec n (filesize - br)); [|lia].
    destruct (Z.leb_spec (len (@nil byte)) n); [|unfold len in *; cbn in *; lia].
    repeat split; loop_done.
  - (* some payload arrived *)
    destruct Hr0 as [Htr Hlen].
    set (data := b :: d) in *.
    intros H.
    eapply (IH (pending (inbox (conn w1)))) in H;
      [ | subst m; eapply recv_pending; exact Er | reflexivity | lia ].
    destruct H as (evs & msgs & Ht & Hs & Hsent & Hb & Hc & Hnd & Hlast & Hbound & Hf & Hres).
    cbn [conn fs console] in *.
    exists (EvRecv n data :: evs), (MsgProgress (br + len data) filesize :: msgs).
    unfold received in *. cbn [reads map snd concat sent progress_values
                                bounded_reads nondecreasing_from].
    fold n. rewrite Hb, Hnd, len_app.
    replace (n =? n) with true by (symmetry; apply Z.eqb_refl).
    destruct (Z.ltb_spec 0 n); [|lia].
    destruct (Z.leb_spec n (filesize - br)); [|lia].
    destruct (Z.leb_spec (len data) n); [|lia].
    pose proof (len_nonneg data).
    destruct (Z.leb_spec br (br + len data)); [|lia].
    repeat split; auto.
    + rewrite Ht, Htr, <- app_assoc. reflexivity.
    + congruence.
    + rewrite Hc, Hco, <- app_assoc. reflexivity.
    + destruct (progress_values msgs) as [|v vs] eqn:Ev.
      * cbn in *. lia.
      * rewrite Z.add_assoc, <- Hlast.
        change (List.last (v :: vs) br = List.last (v :: vs) (br + len data)).
        apply last_cons_default.
    + lia.
    + rewrite Hf, Hfs, fs_write_app. reflexivity.
  - contradiction.
  - intros H. injection H as <- <-.
    exists [EvRecvErr n], []. unfold received. cbn.
    rewrite app_nil_r, fs_write_nil.
    fold n. replace (n =? n) with true by (symmetry; apply Z.eqb_refl).
    destruct (Z.ltb_spec 0 n); [|lia].
    destruct (Z.leb_spec n (filesize - br)); [|lia].
    destruct (Z.leb_spec (len (@nil byte)) n); [|unfold len in *; cbn in *; lia].
    repeat split; loop_done.
Qed.

(** When the whole payload is on its way, in whatever fragments, the loop
    leaves through its condition having read exactly the payload and nothing
    of what follows it. *)
Lemma recv_loop_complete filepath filesize m :
  forall frags rest bytes_received w,
    length (concat frags) = m ->
    inbox (conn w) = map Data frags ++ rest ->
    len (concat frags) = filesize - bytes_received ->
    exists w' evs empties,
      recv_loop filepath filesize bytes_received w = (Val tt, w')
      /\ trace (conn w') = trace (conn w) ++ evs
      /\ received evs = concat frags
      /\ inbox (conn w') = map Data empties ++ rest
      /\ concat empties = [].
Proof.
  induction m as [m IH] using lt_wf_ind.
  intros frags rest br w Hm Hin Hlen. rewrite recv_loop_eq.
  destruct (Z.ltb_spec br filesize) as [Hlt|Hge].
  2:{ exists w, [], frags. rewrite app_nil_r.
      assert (concat frags = []) as Hnil
        by (destruct (concat frags); [reflexivity | unfold len in Hlen; cbn in Hlen; lia]).
      rewrite Hnil. repeat split; auto. }
  set (n := Z.min 4096 (filesize - br)).
  assert (Hn : 0 < n <= filesize - br) by (unfold n; lia).
  assert (Hne : concat frags <> [])
    by (intros E; rewrite E in Hlen; unfold len in Hlen; cbn in Hlen; lia).
  destruct (deliver_frags (Z.to_nat n) frags rest ltac:(lia) Hne)
    as (d & frags' & Hd & Hdne & Hdlen & Hcat).
  unfold recv, on_conn, conn_recv.
  destruct (Z.leb_spec n 0); [lia|].
  rewrite Hin, Hd.
  destruct d as [|b d]; [contradiction|].
  set (data := b :: d) in *.
  set (w2 := mkWorld _ _ _).
  destruct (IH (length (concat frags')) ltac:(rewrite <- Hm, Hcat, length_app; cbn; lia)
              frags' rest (br + len data) w2 eq_refl eq_refl)
    as (w' & evs & empties & Hrun & Htr & Hrec & Hinb & Hemp).
  { rewrite Hcat, len_app in Hlen. lia. }
  exists w', (EvRecv n data :: evs), empties.
  rewrite Hrun, Htr. unfold received in *. cbn [reads map snd concat].
  rewrite Hrec, Hcat. cbn. rewrite <- app_assoc. repeat split; auto.
Qed.

(** * The claims *)

(** ** Bounded receive *)

(** C3.  Starting from [bytes_received = 0] with declared size [filesize],
    every read the receive loop issues asks for
    [min(4096, filesize - bytes_received)] bytes, never more than what is
    still owed; and when the [filesize] payload bytes are delivered, cut by
    the transport into any fragments [frags], the loop ends through its
    condition having read the payload and nothing after it, and the open
    destination file has grown by exactly those [filesize] bytes. *)
Theorem receive_loop_bounded_and_exact (filepath : pystr) (filesize : Z) :
  0 <= filesize ->
  (forall w r w',
      recv_loop filepath filesize 0 w = (r, w') ->
      exists evs,
        trace (conn w') = trace (conn w) ++ evs
        /\ bounded_reads filesize 0 (reads evs) = true)
  /\
  (forall frags rest w content,
      inbox (conn w) = map Data frags ++ rest ->
      len (concat frags) = filesize ->
      fs w !! filepath = Some (File content) ->
      exists w' evs,
        recv_loop filepath filesize 0 w = (Val tt, w')
        /\ trace (conn w') = trace (conn w) ++ evs
        /\ bounded_reads filesize 0 (reads evs) = true
        /\ received evs = concat frags
        /\ len (received evs) = filesize
        /\ fs w' = <[filepath := File (content ++ concat frags)]> (fs w)).
Proof.
  intros Hsize. split.
  - intros w r w' Hrun.
    destruct (recv_loop_inv filepath filesize _ 0 w r w' eq_refl Hsize Hrun)
      as (evs & _ & Htr & _ & _ & Hb & _).
    exists evs. split; assumption.
  - intros frags rest w content Hin Hlen Hfile.
    destruct (recv_loop_complete filepath filesize _ frags rest 0 w eq_refl Hin
                ltac:(lia))
      as (w' & evs & _ & Hrun & Htr & Hrec & _).
    destruct (recv_loop_inv filepath filesize _ 0 w _ w' eq_refl Hsize Hrun)
      as (evs' & _ & Htr' & _ & _ & Hb & _ & _ & _ & _ & Hfs & _).
    assert (evs' = evs) as -> by (eapply app_inv_head; rewrite <- Htr, <- Htr'; reflexivity).
    exists w', evs. repeat split; try assumption.
    + rewrite Hrec. exact Hlen.
    + rewrite Hfs, Hrec. unfold fs_write. rewrite Hfile. reflexivity.
Qed.

Lemma receive_loop_bounded_and_exact_witness :
  exists w' evs,
    recv_loop demo_path 5 0 demo_world = (Val tt, w')
    /\ trace (conn w') = trace (conn demo_world) ++ evs
    /\ bounded_reads 5 0 (reads evs) = true
    /\ received evs = concat demo_fragments
    /\ len (received evs) = 5
    /\ fs w' = <[demo_path := File ([] ++ concat demo_fragments)]> (fs demo_world).
Proof.
  apply (proj2 (receive_loop_bounded_and_exact demo_path 5 ltac:(lia))
           demo_fragments [Data (b_lit "next")] demo_world []).
  - reflexivity.
  - reflexivity.
  - vm_compute. reflexivity.
Defined.

(** ** Early close *)

(** C1.  The code does not do what the claim says: when the sender delivers
    2 of the 5 declared payload bytes and closes, the read that returns
    nothing only leaves the loop; the session then prints the success line,
    writes the completion token [OK] and returns normally. *)
Theorem early_close_reported_as_success :
  fst (receive_file (session early_close)) = inr tt
  /\ sent (trace (conn (snd (receive_file (session early_close)))))
     = [METADATA_OK; OK]
  /\ console (snd (receive_file (session early_close)))
     = [MsgConnection; MsgFilenameLength 3; MsgReceiving (str_lit "a.b");
        MsgFileSize 5; MsgProgress 2 5; MsgReceived demo_path].
Proof. vm_compute. repeat split. Qed.

(** C2.  The code does not do what the claim says: on the same early close
    the counter stops at 2 of the 5 declared bytes, the open file holds 2
    bytes, and the session still completes as a success. *)
Theorem fewer_bytes_than_declared_at_success :
  progress_values (console (snd (receive_file (session early_close)))) = [2]
  /\ fs (snd (receive_file (session early_close))) !! demo_path
     = Some (File (b_lit "he"))
  /\ In (MsgFileSize 5) (console (snd (receive_file (session early_close))))
  /\ In (MsgReceived demo_path) (console (snd (receive_file (session early_close))))
  /\ List.last (sent (trace (conn (snd (receive_file (session early_close)))))) []
     = OK.
Proof. vm_compute. repeat split; auto 10. Qed.

(** ** Header reads *)

(** C4.  The code does not do what the claim says.  Each header field is
    read with a single [recv], which returns what has arrived: when the
    4-byte length field arrives in two runs the first read gets 2 bytes and
    the session fails on a header that was sent in full; and when the peer
    closes two bytes short of the header, with the fields arriving
    misaligned, the session takes the 8 bytes it finds for the size, never
    notices, and reports success. *)
Theorem header_fields_read_with_single_recv :
  (reads (trace (conn (snd (receive_file (session split_length_field)))))
   = [(4, take 2 (be_bytes 4 3))]
   /\ sent (trace (conn (snd (receive_file (session split_length_field)))))
      = [ERROR]
   /\ console (snd (receive_file (session split_length_field)))
      = [MsgConnection; MsgError StructError])
  /\
  (pending (inbox truncated_header) = 13%nat
   /\ reads (trace (conn (snd (receive_file (session truncated_header)))))
      = [(4, be_bytes 4 3); (3, b_lit "a");
         (8, b_lit ".b" ++ take 6 (be_bytes 8 5)); (4096, [])]
   /\ sent (trace (conn (snd (receive_file (session truncated_header)))))
      = [METADATA_OK; OK]
   /\ In (MsgReceived (str_lit "received_files/a"))
        (console (snd (receive_file (session truncated_header))))).
Proof. vm_compute. repeat split; auto 10. Qed.

(** ** The accept loop *)

(** C8.  The code does not do what the claim says: when the connection has
    been reset, the read raises, the handler's own [send] of the error token
    raises too, and that exception leaves [receive_file] and then
    [start_server]; the client that comes next is never accepted. *)
Theorem failed_error_report_stops_the_listener :
  fst (receive_file (session reset_by_peer)) = inl BrokenPipeError
  /\ fst (start_server [Connection reset_by_peer; Connection good_client] ∅)
     = Crashed BrokenPipeError
  /\ length (served (snd (start_server [Connection reset_by_peer;
                                        Connection good_client] ∅))) = 1%nat
  /\ fst (start_server [Connection good_client] ∅) = Accepting.
Proof. vm_compute. repeat split. Qed.

(** ** The sending side *)

Lemma send_loop_trace m :
  forall f filesize bytes_sent c r c',
    length f = m ->
    send_loop f filesize bytes_sent c = (r, c') ->
    exists evs, trace c' = trace c ++ evs /\ inbox c' = inbox c
                /\ reads evs = [] /\ (forall x, r <> Ret x).
Proof.
  induction m as [m IH] using lt_wf_ind.
  intros f filesize bs c r c' Hm. rewrite send_loop_eq.
  destruct (bs <? filesize).
  2:{ intros H; injection H as <- <-. exists []. rewrite app_nil_r. auto. }
  destruct (take 4096 f) as [|b chunk'] eqn:Et.
  { intros H; injection H as <- <-. exists []. rewrite app_nil_r. auto. }
  assert (Hlen : (length (drop 4096 f) < m)%nat).
  { pose proof (f_equal length (take_drop 4096 f)) as Htd.
    rewrite Et, length_app in Htd. cbn in Htd. lia. }
  unfold sock_send, io, conn_send.
  destruct (send_faults c) as [|[|] later]; cbn [trace inbox].
  - intros H. eapply IH in H; [|exact Hlen|reflexivity].
    destruct H as (evs & Ht & Hi & Hr & Hret). cbn in Ht, Hi.
    exists (EvSend (b :: chunk') :: evs). rewrite Ht, <- app_assoc. auto.
  - intros H; injection H as <- <-. cbn. eexists. repeat split; auto.
  - intros H. eapply IH in H; [|exact Hlen|reflexivity].
    destruct H as (evs & Ht & Hi & Hr & Hret). cbn in Ht, Hi.
    exists (EvSend (b :: chunk') :: evs). rewrite Ht, <- app_assoc. auto.
Qed.

Lemma first_read_app a b :
  first_read (a ++ b)
  = match first_read a with Some x => Some x | None => first_read b end.
Proof. induction a as [|[] a IH]; cbn; auto. Qed.

Lemma after_first_read_app a b :
  after_first_read (a ++ b)
  = match first_read a with
    | Some _ => after_first_read a ++ b
    | None => after_first_read b
    end.
Proof. induction a as [|[] a IH]; cbn; auto. Qed.

Lemma conn_recv_trace n c x c' :
  conn_recv n c = (x, c') ->
  trace c' = trace c ++ [match x with inr d => EvRecv n d | inl _ => EvRecvErr n end].
Proof.
  unfold conn_recv. destruct (n <=? 0).
  - intros H; injection H as <- <-. reflexivity.
  - destruct (deliver _ _) as [[e|d] inb]; intros H; injection H as <- <-;
      reflexivity.
Qed.

Lemma conn_send_trace data c x c' :
  conn_send data c = (x, c') ->
  trace c' = trace c ++ [match x with inr _ => EvSend data | inl _ => EvSendErr data end]
  /\ inbox c' = inbox c.
Proof.
  unfold conn_send. destruct (send_faults c) as [|[|] later];
    intros H; injection H as <- <-; split; reflexivity.
Qed.

(** Writing the header does not read, and does not return from the
    function. *)
Lemma send_header_trace name filesize c r c' :
  send_header name filesize c = (r, c') ->
  exists evs, trace c' = trace c ++ evs /\ first_read evs = None
              /\ inbox c' = inbox c /\ (forall x, r <> Ret x).
Proof.
  unfold send_header, bind, lift, raise, ret, sock_send, io.
  destruct (utf8_encode name) as [filename_bytes|].
  2:{ intros H; injection H as <- <-. exists []. rewrite app_nil_r. auto. }
  destruct (pack_I (len filename_bytes)) as [e|packed_len].
  { intros H; injection H as <- <-. exists []. rewrite app_nil_r. auto. }
  destruct (conn_send packed_len c) as [[e|[]] c1] eqn:E1;
    apply conn_send_trace in E1; destruct E1 as [T1 I1].
  { intros H; injection H as <- <-.
    eexists; repeat split; eauto; try congruence; discriminate. }
  destruct (conn_send filename_bytes c1) as [[e|[]] c2] eqn:E2;
    apply conn_send_trace in E2; destruct E2 as [T2 I2].
  { intros H; injection H as <- <-. rewrite T2, T1, <- app_assoc.
    eexists; repeat split; eauto; try congruence; discriminate. }
  destruct (pack_Q filesize) as [e|packed_size].
  { intros H; injection H as <- <-. rewrite T2, T1, <- app_assoc.
    eexists; repeat split; eauto; try congruence; discriminate. }
  destruct (conn_send packed_size c2) as [[e|[]] c3] eqn:E3;
    apply conn_send_trace in E3; destruct E3 as [T3 I3];
    intros H; injection H as <- <-; rewrite T3, T2, T1, <- !app_assoc;
    eexists; repeat split; eauto; try congruence; discriminate.
Qed.

Lemma send_payload_trace src filesize c r c' :
  send_payload src filesize c = (r, c') ->
  exists evs, trace c' = trace c ++ evs.
Proof.
  unfold send_payload, bind, lift, raise, ret, return_, sock_recv, io.
  destruct (src_open src) as [e|f].
  { intros H; injection H as <- <-. exists []. rewrite app_nil_r. auto. }
  destruct (send_loop f filesize 0 c) as [r1 c1] eqn:E1.
  destruct (send_loop_trace _ _ _ _ _ _ _ eq_refl E1) as (evs & T1 & _).
  destruct r1 as [[]|x|e]; try (intros H; injection H as <- <-; eauto).
  destruct (conn_recv 1024 c1) as [[e|d] c2] eqn:E2;
    apply conn_recv_trace in E2.
  - intros H; injection H as <- <-. rewrite E2, T1, <- app_assoc. eauto.
  - destruct (decide (d = OK)); intros H; injection H as <- <-;
      rewrite E2, T1, <- app_assoc; eauto.
Qed.

(** The metadata checkpoint, inside the [try] block. *)
Lemma send_file_try_checkpoint filename src link filesize c r c' tok :
  first_read (trace c) = None ->
  send_file_try filename src link filesize c = (r, c') ->
  first_read (trace c') = Some tok ->
  tok <> METADATA_OK ->
  r = Ret false /\ after_first_read (trace c') = [].
Proof.
  intros Hc. unfold send_file_try, bind at 1 2, socket, connect, log_event.
  assert (Hnone : forall evs, first_read evs = None ->
                              first_read (trace c ++ evs) = None)
    by (intros evs He; rewrite first_read_app, Hc; exact He).
  destruct link; cbn [trace inbox send_faults bind raise].
  2,3: unfold bind, raise; cbn;
       intros H; injection H as <- <-; cbn;
       rewrite <- app_assoc, Hnone by reflexivity; discriminate.
  unfold bind at 1.
  destruct (send_header _ _ _) as [r3 c3] eqn:E3.
  destruct (send_header_trace _ _ _ _ _ E3) as (evs & T3 & N3 & _ & R3).
  cbn [trace] in T3.
  assert (Hc3 : first_read (trace c3) = None).
  { rewrite T3, <- !app_assoc. apply Hnone. cbn. exact N3. }
  destruct r3 as [[]|x|e].
  2:{ exfalso. eapply R3. reflexivity. }
  2:{ intros H; injection H as <- <-. rewrite Hc3. discriminate. }
  unfold bind, sock_recv, io, return_.
  destruct (conn_recv 1024 c3) as [[e|d] c4] eqn:E4;
    pose proof (conn_recv_trace _ _ _ _ E4) as T4.
  { intros H; injection H as <- <-. rewrite T4, first_read_app, Hc3. cbn.
    discriminate. }
  destruct (decide (d = METADATA_OK)) as [->|Hne].
  - intros H. apply send_payload_trace in H. destruct H as (evs' & T5).
    rewrite T5, T4, <- app_assoc, first_read_app, Hc3. cbn.
    intros Htok; injection Htok as <-. contradiction.
  - intros H; injection H as <- <-. intros _ _. split; [reflexivity|].
    rewrite T4, after_first_read_app, Hc3. reflexivity.
Qed.

(** C5.  Whatever the source, the network and the peer do: if the first
    read of the session, the one at the metadata checkpoint, returns a token
    other than [METADATA_OK] (the empty token of a closed connection
    included), [send_file] returns [False] and the only thing it does on the
    socket after that read is to close it, so no payload byte is written. *)
Theorem bad_handshake_sends_no_payload
    (filename : pystr) (src : Source) (link : connect_result)
    (replies : list segment) (faults : list bool) (tok : bytes) :
  first_read (trace (snd (send_file filename src link replies faults))) = Some tok ->
  tok <> METADATA_OK ->
  fst (send_file filename src link replies faults) = inr false
  /\ after_first_read (trace (snd (send_file filename src link replies faults)))
     = [EvClose]
  /\ sent (after_first_read
             (trace (snd (send_file filename src link replies faults)))) = [].
Proof.
  intros Hfirst Hbad.
  destruct (send_file filename src link replies faults) as [x c''] eqn:Hrun.
  cbn [fst snd] in *.
  enough (x = inr false /\ after_first_read (trace c'') = [EvClose]) as [H1 H2]
    by (rewrite H2; auto).
  revert Hrun. unfold send_file, call.
  destruct (src_exists src); cbn [negb].
  2:{ intros H; injection H as <- <-. discriminate. }
  unfold bind at 1, lift.
  destruct (src_getsize src) as [e|filesize].
  { intros H; injection H as <- <-. discriminate. }
  unfold ret, try_finally, try_except, sock_close, log_event.
  destruct (send_file_try _ _ _ _ _) as [r c'] eqn:Etry.
  pose proof (send_file_try_checkpoint filename src link filesize
                (mkConn replies faults []) r c' tok eq_refl Etry) as Hcp.
  assert (Hfinal : trace c'' = trace c' ++ [EvClose] ->
                   r = Ret false /\ after_first_read (trace c'') = [EvClose]).
  { intros Ht. rewrite Ht in Hfirst |- *. rewrite first_read_app in Hfirst.
    destruct (first_read (trace c')) as [t|] eqn:Ef; [|discriminate].
    injection Hfirst as ->. destruct (Hcp eq_refl Hbad) as [-> Ha].
    split; [reflexivity|]. rewrite after_first_read_app, Ef, Ha. reflexivity. }
  destruct r as [b|b|e]; [| |destruct e]; cbn;
    intros H; injection H as <- <-;
    destruct (Hfinal eq_refl) as [Hr Ha]; try discriminate;
    injection Hr as ->; split; [reflexivity | exact Ha].
Qed.

Lemma bad_handshake_sends_no_payload_witness :
  fst (send_file (str_lit "dir/a.b") (mkSource true (inr 5) (inr (b_lit "hello")))
         Connected [Data ERROR] []) = inr false
  /\ after_first_read
       (trace (snd (send_file (str_lit "dir/a.b")
                      (mkSource true (inr 5) (inr (b_lit "hello")))
                      Connected [Data ERROR] [])))
     = [EvClose]
  /\ sent (after_first_read
             (trace (snd (send_file (str_lit "dir/a.b")
                            (mkSource true (inr 5) (inr (b_lit "hello")))
                            Connected [Data ERROR] [])))) = [].
Proof.
  apply (bad_handshake_sends_no_payload (str_lit "dir/a.b")
           (mkSource true (inr 5) (inr (b_lit "hello"))) Connected
           [Data ERROR] [] ERROR).
  - vm_compute. reflexivity.
  - vm_compute. discriminate.
Defined.



(** With no write failing, the streaming loop sends a source that is no
    longer than what is still to be sent in full, chunk by chunk, and then
    leaves: through the zero-byte read when the source is shorter, through
    its condition otherwise. *)
Lemma send_loop_all m :
  forall f filesize bytes_sent c,
    length f = m ->
    send_faults c = [] ->
    len f <= filesize - bytes_sent ->
    exists chunks,
      send_loop f filesize bytes_sent c
      = (Val tt, mkConn (inbox c) [] (trace c ++ map EvSend chunks))
      /\ concat chunks = f.
Proof.
  induction m as [m IH] using lt_wf_ind.
  intros f filesize bs c Hm Hf Hlen. rewrite send_loop_eq.
  assert (Hc : c = mkConn (inbox c) [] (trace c ++ map EvSend []))
    by (destruct c; cbn in *; subst; rewrite app_nil_r; reflexivity).
  destruct (Z.ltb_spec bs filesize) as [Hlt|Hge].
  2:{ exists []. split; [congruence|].
      destruct f; [reflexivity | unfold len in Hlen; cbn in Hlen; lia]. }
  destruct (take 4096 f) as [|b chunk'] eqn:Et.
  { exists []. split; [congruence|].
    destruct f; [reflexivity | discriminate]. }
  pose proof (take_drop 4096 f) as Htd. rewrite Et in Htd.
  assert (Hdec : (length (drop 4096 f) < m)%nat)
    by (rewrite <- Hm; apply (f_equal length) in Htd;
        rewrite length_app in Htd; cbn in Htd; lia).
  unfold sock_send, io, conn_send. rewrite Hf.
  destruct (IH (length (drop 4096 f)) Hdec
              (drop 4096 f) filesize (bs + len (b :: chunk'))
              (mkConn (inbox c) [] (trace c ++ [EvSend (b :: chunk')]))
              eq_refl eq_refl)
    as (chunks & Hrun & Hcat).
  { rewrite <- Htd, len_app in Hlen. lia. }
  exists ((b :: chunk') :: chunks). rewrite Hrun. cbn [inbox trace map concat].
  rewrite <- app_assoc, Hcat. split; [reflexivity | exact Htd].
Qed.

Lemma conn_send_ok data c :
  send_faults c = [] ->
  conn_send data c = (inr tt, mkConn (inbox c) [] (trace c ++ [EvSend data])).
Proof. unfold conn_send. intros ->. reflexivity. Qed.

Lemma pack_uint_ok k n :
  0 <= n < 256 ^ Z.of_nat k -> pack_uint k n = inr (be_bytes k n).
Proof.
  intros H. unfold pack_uint.
  destruct (Z.leb_spec 0 n); [|lia].
  destruct (Z.ltb_spec n (256 ^ Z.of_nat k)); [|lia]. reflexivity.
Qed.

(** The header on the wire when nothing fails. *)
Lemma send_header_ok name filename_bytes filesize c :
  utf8_encode name = Some filename_bytes ->
  len filename_bytes < 2 ^ 32 ->
  0 <= filesize < 2 ^ 64 ->
  send_faults c = [] ->
  send_header name filesize c
  = (Val tt,
     mkConn (inbox c) []
       (trace c ++ map EvSend [be_bytes 4 (len filename_bytes); filename_bytes;
                               be_bytes 8 filesize])).
Proof.
  intros Henc Hl Hs Hf.
  unfold send_header, bind, lift, ret, sock_send, io, pack_I, pack_Q.
  rewrite Henc.
  rewrite (pack_uint_ok 4) by (pose proof (len_nonneg filename_bytes); lia).
  rewrite (pack_uint_ok 8) by lia.
  rewrite !conn_send_ok by (cbn; auto). cbn.
  rewrite <- !app_assoc. reflexivity.
Qed.

(** A read that asks for at least what the first run holds gets the whole
    run. *)
Lemma deliver_whole n bs rest :
  bs <> [] -> (length bs <= n)%nat -> deliver n (Data bs :: rest) = (inr bs, rest).
Proof.
  intros Hne Hn. destruct bs as [|b bs]; [contradiction|]. cbn [deliver].
  rewrite take_ge, drop_ge by exact Hn. reflexivity.
Qed.

(** A read that asks for exactly the first [length bs] bytes of the first
    run gets them and leaves the rest of the run. *)
Lemma deliver_exact bs more rest :
  bs <> [] ->
  deliver (length bs) (Data (bs ++ more) :: rest)
  = (inr bs, match more with [] => rest | _ => Data more :: rest end).
Proof.
  intros Hne. destruct bs as [|b bs]; [contradiction|].
  change ((b :: bs) ++ more) with (b :: (bs ++ more)). cbn [deliver].
  change (b :: (bs ++ more)) with ((b :: bs) ++ more).
  rewrite take_app_length, drop_app_length. destruct more; reflexivity.
Qed.

Lemma conn_recv_exact bs more rest faults tr :
  bs <> [] ->
  conn_recv (len bs) (mkConn (Data (bs ++ more) :: rest) faults tr)
  = (inr bs,
     mkConn (match more with [] => rest | _ => Data more :: rest end) faults
       (tr ++ [EvRecv (len bs) bs])).
Proof.
  intros Hne. unfold conn_recv, len.
  destruct (Z.leb_spec (Z.of_nat (length bs)) 0) as [H|H].
  { destruct bs; [contradiction | cbn in H; lia]. }
  cbn [inbox send_faults trace]. rewrite Nat2Z.id, deliver_exact by exact Hne.
  reflexivity.
Qed.

Lemma conn_recv_token tok rest faults tr :
  tok <> [] -> len tok <= 1024 ->
  conn_recv 1024 (mkConn (Data tok :: rest) faults tr)
  = (inr tok, mkConn rest faults (tr ++ [EvRecv 1024 tok])).
Proof.
  intros Hne Hlen. unfold conn_recv. cbn [inbox send_faults trace Z.leb Z.compare].
  rewrite deliver_whole; [reflexivity | exact Hne | unfold len in Hlen; lia].
Qed.

(** C7.  The source holds fewer bytes than the size announced in the
    header, so a read of the file returns nothing before [bytes_sent]
    reaches [filesize].  The sender does not abort: having written every
    byte the source had, it goes on to the read that waits for the final
    acknowledgment, and what it returns is decided by that token alone
    ([True] exactly when the token is [OK]). *)
Theorem truncated_source_waits_for_final_ack
    (filename : pystr) (src : Source) (filename_bytes content : bytes)
    (filesize : Z) (rest : list segment) :
  src_exists src = true ->
  src_getsize src = inr filesize ->
  src_open src = inr content ->
  len content < filesize ->
  filesize < 2 ^ 64 ->
  utf8_encode (basename filename) = Some filename_bytes ->
  len filename_bytes < 2 ^ 32 ->
  exists chunks,
    concat chunks = content
    /\ send_file filename src Connected (Data METADATA_OK :: rest) []
       = match conn_recv 1024
                 (mkConn rest []
                    ([EvSocket; EvConnect true]
                     ++ map EvSend [be_bytes 4 (len filename_bytes);
                                    filename_bytes; be_bytes 8 filesize]
                     ++ [EvRecv 1024 METADATA_OK]
                     ++ map EvSend chunks)) with
         | (inr final_ack, c) => (inr (bool_decide (final_ack = OK)), conn_close c)
         | (inl _, c) => (inr false, conn_close c)
         end.
Proof.
  intros Hex Hsize Hopen Hshort Hmax Henc Hname.
  pose proof (len_nonneg content) as Hc0.
  set (c1 := mkConn rest []
               ([EvSocket; EvConnect true]
                ++ map EvSend [be_bytes 4 (len filename_bytes);
                               filename_bytes; be_bytes 8 filesize]
                ++ [EvRecv 1024 METADATA_OK])).
  destruct (send_loop_all _ content filesize 0 c1 eq_refl eq_refl ltac:(lia))
    as (chunks & Hloop & Hcat).
  exists chunks. split; [exact Hcat|].
  unfold send_file, call. rewrite Hex. cbn [negb].
  unfold bind at 1, lift. rewrite Hsize.
  unfold ret, try_finally, try_except, send_file_try.
  unfold bind at 1 2 3, socket, connect, log_event.
  cbn [inbox send_faults trace app].
  assert (Hrange : 0 <= filesize < 2 ^ 64) by lia.
  rewrite (send_header_ok _ filename_bytes filesize)
    by first [exact Henc | exact Hname | exact Hrange | reflexivity].
  cbn [inbox send_faults trace app map].
  unfold bind at 1, sock_recv, io.
  rewrite conn_recv_token by (vm_compute; first [discriminate | reflexivity]).
  destruct (decide (METADATA_OK = METADATA_OK)) as [_|Hne]; [|contradiction].
  unfold send_payload, bind, lift, ret, return_, sock_recv, io.
  rewrite Hopen.
  change (mkConn rest [] _) with c1 at 1. rewrite Hloop.
  subst c1. cbn [inbox send_faults trace app map].
  destruct (conn_recv 1024 _) as [[e|final_ack] c2].
  - destruct e; reflexivity.
  - destruct (decide (final_ack = OK)) as [Heq|Hne];
      [rewrite (bool_decide_eq_true_2 _ Heq)
      | rewrite (bool_decide_eq_false_2 _ Hne)]; reflexivity.
Qed.

Lemma truncated_source_waits_for_final_ack_witness :
  exists chunks,
    concat chunks = b_lit "hel"
    /\ send_file (str_lit "dir/a.b")
         (mkSource true (inr 5) (inr (b_lit "hel"))) Connected
         (Data METADATA_OK :: [Data OK]) []
       = match conn_recv 1024
                 (mkConn [Data OK] []
                    ([EvSocket; EvConnect true]
                     ++ map EvSend [be_bytes 4 (len (b_lit "a.b"));
                                    b_lit "a.b"; be_bytes 8 5]
                     ++ [EvRecv 1024 METADATA_OK]
                     ++ map EvSend chunks)) with
         | (inr final_ack, c) => (inr (bool_decide (final_ack = OK)), conn_close c)
         | (inl _, c) => (inr false, conn_close c)
         end.
Proof.
  apply (truncated_source_waits_for_final_ack (str_lit "dir/a.b")
           (mkSource true (inr 5) (inr (b_lit "hel"))) (b_lit "a.b")
           (b_lit "hel") 5 [Data OK]);
    first [reflexivity | vm_compute; reflexivity].
Defined.

(** ** The metadata header *)

Lemma offers_nil inb : offers inb [] inb.
Proof. intros faults tr. reflexivity. Qed.

Lemma offers_segment bs rest : bs <> [] -> offers (Data bs :: rest) bs rest.
Proof.
  intros Hne faults tr.
  pose proof (conn_recv_exact bs [] rest faults tr Hne) as H.
  rewrite app_nil_r in H. exact H.
Qed.

Lemma offers_prefix bs more rest :
  bs <> [] ->
  offers (Data (bs ++ more) :: rest) bs
    (match more with [] => rest | _ => Data more :: rest end).
Proof. intros Hne faults tr. apply conn_recv_exact, Hne. Qed.

Lemma offers_skip_empty inb bs inb' :
  bs <> [] -> offers inb bs inb' -> offers (Data [] :: inb) bs inb'.
Proof.
  intros Hne H faults tr. specialize (H faults tr). revert H.
  unfold conn_recv. destruct (len bs <=? 0); [|exact (fun H => H)].
  intros H. injection H as <- _. contradiction.
Qed.

Lemma be_bytes_nonempty k n : be_bytes (S k) n <> [].
Proof.
  intros E. apply (f_equal length) in E. rewrite be_bytes_length in E.
  discriminate.
Qed.

(** The receiver's header block on an inbox that offers the three fields
    whole. *)
Lemma recv_header_offers w name filesize len_field name_field size_field
    inb1 inb2 inb3 :
  offers (inbox (conn w)) len_field inb1 ->
  offers inb1 name_field inb2 ->
  offers inb2 size_field inb3 ->
  len len_field = 4 ->
  len size_field = 8 ->
  unpack_I len_field = inr (len name_field) ->
  utf8_decode name_field = Some name ->
  unpack_Q size_field = inr filesize ->
  exists w',
    recv_header w = (Val (name, filesize), w')
    /\ inbox (conn w') = inb3 /\ fs w' = fs w
    /\ send_faults (conn w') = send_faults (conn w).
Proof.
  intros O1 O2 O3 L1 L3 U1 D2 U3.
  destruct w as [[inb faults tr] fs0 con]. cbn [conn inbox] in O1.
  unfold recv_header, bind, recv, on_conn, print, lift, ret. cbn [conn fs console].
  rewrite <- L1, O1.
  destruct len_field as [|b0 len_field'] eqn:El; [discriminate|]. rewrite <- El in *.
  rewrite U1. cbn [conn fs console]. rewrite O2, D2. cbn [conn fs console].
  rewrite <- L3, O3, U3. cbn [conn fs console].
  eexists. repeat split.
Qed.

(** C6.  For a name whose UTF-8 encoding has at most 65535 bytes and a size
    that fits 64 bits, the sender writes the 4-byte big-endian length, the
    name bytes and the 8-byte big-endian size; and the receiver's header
    block, reading them as the three writes arrive or out of one run that
    holds them all (and possibly the start of the payload), yields the name
    and the size it started from and consumes nothing beyond the header. *)
Theorem header_round_trip
    (name : pystr) (filename_bytes : bytes) (filesize : Z) (c : Conn) :
  utf8_encode name = Some filename_bytes ->
  len filename_bytes <= 65535 ->
  0 <= filesize < 2 ^ 64 ->
  send_faults c = [] ->
  exists wire,
    send_header name filesize c
    = (Val tt, mkConn (inbox c) [] (trace c ++ map EvSend wire))
    /\ wire = [be_bytes 4 (len filename_bytes); filename_bytes; be_bytes 8 filesize]
    /\ (forall w rest,
           inbox (conn w) = map Data wire ++ rest ->
           exists w',
             recv_header w = (Val (name, filesize), w')
             /\ inbox (conn w') = rest)
    /\ (forall w payload rest,
           inbox (conn w) = Data (concat wire ++ payload) :: rest ->
           exists w',
             recv_header w = (Val (name, filesize), w')
             /\ inbox (conn w')
                = match payload with [] => rest | _ => Data payload :: rest end).
Proof.
  intros Henc Hl Hs Hf.
  pose proof (len_nonneg filename_bytes) as Hl0.
  assert (U1 : unpack_I (be_bytes 4 (len filename_bytes)) = inr (len filename_bytes))
    by (apply unpack_pack_uint, pack_uint_ok; lia).
  assert (U3 : unpack_Q (be_bytes 8 filesize) = inr filesize)
    by (apply unpack_pack_uint, pack_uint_ok; lia).
  assert (L1 : len (be_bytes 4 (len filename_bytes)) = 4)
    by (unfold len at 1; rewrite be_bytes_length; reflexivity).
  assert (L3 : len (be_bytes 8 filesize) = 8)
    by (unfold len; rewrite be_bytes_length; reflexivity).
  pose proof (utf8_decode_encode _ _ Henc) as D2.
  eexists. split; [apply send_header_ok; first [eassumption | lia]|].
  split; [reflexivity|]. split.
  - intros w rest Hin. cbn [map app] in Hin.
    destruct (recv_header_offers w name filesize
                (be_bytes 4 (len filename_bytes)) filename_bytes
                (be_bytes 8 filesize)
                (Data filename_bytes :: Data (be_bytes 8 filesize) :: rest)
                (match filename_bytes with
                 | [] => Data [] :: Data (be_bytes 8 filesize) :: rest
                 | _ => Data (be_bytes 8 filesize) :: rest
                 end)
                rest) as (w' & Hrun & Hinb & _); auto.
    + rewrite Hin. apply offers_segment, be_bytes_nonempty.
    + destruct filename_bytes; [apply offers_nil | apply offers_segment; discriminate].
    + destruct filename_bytes;
        [apply offers_skip_empty; [apply be_bytes_nonempty|] |];
        apply offers_segment, be_bytes_nonempty.
    + eauto.
  - intros w payload rest Hin. cbn [concat] in Hin. rewrite app_nil_r in Hin.
    set (tail := match payload with [] => rest | _ => Data payload :: rest end).
    assert (Hsize : offers (Data (be_bytes 8 filesize ++ payload) :: rest)
                      (be_bytes 8 filesize) tail)
      by (apply offers_prefix, be_bytes_nonempty).
    assert (Hne : filename_bytes ++ be_bytes 8 filesize ++ payload <> [])
      by (intros E; apply (f_equal length) in E;
          rewrite !length_app, be_bytes_length in E; cbn in E; lia).
    destruct (recv_header_offers w name filesize
                (be_bytes 4 (len filename_bytes)) filename_bytes
                (be_bytes 8 filesize)
                (Data (filename_bytes ++ be_bytes 8 filesize ++ payload) :: rest)
                (Data (be_bytes 8 filesize ++ payload) :: rest)
                tail) as (w' & Hrun & Hinb & _); auto.
    + rewrite Hin, <- !app_assoc.
      pose proof (offers_prefix (be_bytes 4 (len filename_bytes))
                    (filename_bytes ++ be_bytes 8 filesize ++ payload) rest
                    (be_bytes_nonempty _ _)) as H.
      destruct (filename_bytes ++ be_bytes 8 filesize ++ payload);
        [contradiction | exact H].
    + destruct filename_bytes as [|b nb'] eqn:En; [apply offers_nil|].
      rewrite <- En in *.
      pose proof (offers_prefix filename_bytes (be_bytes 8 filesize ++ payload)
                    rest ltac:(rewrite En; discriminate)) as H.
      destruct (be_bytes 8 filesize ++ payload) eqn:E8; [|exact H].
      apply (f_equal length) in E8. rewrite length_app, be_bytes_length in E8.
      discriminate.
    + eauto.
Qed.

Lemma header_round_trip_witness :
  exists wire,
    send_header (str_lit "a.b") 5 (mkConn [] [] [])
    = (Val tt,
       mkConn (inbox (mkConn [] [] [])) []
         (trace (mkConn [] [] []) ++ map EvSend wire))
    /\ wire = [be_bytes 4 (len (b_lit "a.b")); b_lit "a.b"; be_bytes 8 5]
    /\ (forall w rest,
           inbox (conn w) = map Data wire ++ rest ->
           exists w',
             recv_header w = (Val (str_lit "a.b", 5), w')
             /\ inbox (conn w') = rest)
    /\ (forall w payload rest,
           inbox (conn w) = Data (concat wire ++ payload) :: rest ->
           exists w',
             recv_header w = (Val (str_lit "a.b", 5), w')
             /\ inbox (conn w')
                = match payload with [] => rest | _ => Data payload :: rest end).
Proof.
  apply (header_round_trip (str_lit "a.b") (b_lit "a.b") 5 (mkConn [] [] [])).
  - vm_compute. reflexivity.
  - vm_compute. discriminate.
  - lia.
  - reflexivity.
Defined.

(** ** The output directory *)

Lemma path_join_received_files filename :
  path_join received_files filename <> received_files.
Proof.
  unfold path_join. destruct filename as [|c filename].
  - change (List.last received_files sep =? sep) with false. cbv iota.
    intros E. apply (f_equal length) in E. rewrite length_app in E.
    cbn in E. lia.
  - destruct (Z.eqb_spec c sep) as [->|_].
    + vm_compute. discriminate.
    + change (List.last received_files sep =? sep) with false. cbv iota.
      intros E. apply (f_equal length) in E. rewrite length_app in E.
      cbn in E. lia.
Qed.

Lemma be_value_nonneg bs : 0 <= be_value bs.
Proof.
  unfold be_value.
  assert (H : forall acc, 0 <= acc ->
                0 <= fold_left (fun acc b => acc * 256 + Z_of_byte b) bs acc).
  { induction bs as [|b bs IH]; intros acc Hacc; cbn [fold_left]; [exact Hacc|].
    apply IH. pose proof (Z_of_byte_range b). lia. }
  apply H. lia.
Qed.




Lemma fs_open_wb_outcome (p : pystr) (fs0 : FS) :
  (exists e, fs_open_wb p fs0 = (inl e, fs0))
  \/ (exists f, fs_open_wb p fs0 = (inr f, <[f := File []]> fs0)
                /\ fs0 !! f <> Some Dir).
Proof.
  unfold fs_open_wb.
  repeat match goal with
         | |- context [if ?b then _ else _] => destruct b
         | |- context [match ?y with _ => _ end] => destruct y eqn:?
         end; eauto;
    right; eexists; (split; [reflexivity | congruence]).
Qed.

Lemma recv_header_fs w r w' :
  recv_header w = (r, w') ->
  fs w' = fs w
  /\ match r with Val (_, filesize) => 0 <= filesize | _ => True end.
Proof.
  unfold recv_header, bind, recv, on_conn, print, lift, raise, ret, return_.
  repeat first
    [ progress cbn [conn fs console fst snd]
    | match goal with
      | |- context [conn_recv ?n ?c] => destruct (conn_recv n c) as [[?|[|? ?]] ?]
      | |- context [unpack_I ?d] => destruct (unpack_I d) as [?|?]
      | |- context [unpack_Q ?d] => destruct (unpack_Q d) as [?|?] eqn:?
      | |- context [utf8_decode ?d] => destruct (utf8_decode d) as [?|]
      end ];
    intros H; injection H as <- <-; split; try exact I; try reflexivity;
    match goal with
    | E : unpack_Q _ = inr _ |- _ =>
        unfold unpack_Q, unpack_uint in E;
        destruct (decide _); [injection E as <-; apply be_value_nonneg | discriminate]
    end.
Qed.




(** ** The reference scenario *)

(** A well-behaved client on an empty disk: both tokens are written, the
    file holds the five payload bytes, the directory has been created. *)
Example good_session :
  fst (receive_file (session good_client)) = inr tt
  /\ sent (trace (conn (snd (receive_file (session good_client)))))
     = [METADATA_OK; OK]
  /\ fs (snd (receive_file (session good_client))) !! demo_path
     = Some (File (b_lit "hello"))
  /\ fs (snd (receive_file (session good_client))) !! received_files = Some Dir.
Proof. vm_compute. repeat split. Qed.

(** ** Supporting facts on the two divergences above *)

Lemma deliver_empties n frags :
  concat frags = [] -> deliver n (map Data frags) = (inr [], []).
Proof.
  induction frags as [|[|b bs] frags IH]; cbn [map deliver concat]; intros H.
  - reflexivity.
  - apply IH, H.
  - discriminate.
Qed.

(** The early close in general: whenever the peer closes with fewer bytes
    on their way than are still owed, the loop stores what arrived and ends
    normally on the read that returns nothing, so that the statements after
    the loop run as they do after a complete transfer. *)
Lemma recv_loop_early_close filepath filesize m :
  forall frags bytes_received w,
    length (concat frags) = m ->
    inbox (conn w) = map Data frags ->
    len (concat frags) < filesize - bytes_received ->
    exists w' evs,
      recv_loop filepath filesize bytes_received w = (Val tt, w')
      /\ trace (conn w') = trace (conn w) ++ evs
      /\ received evs = concat frags
      /\ inbox (conn w') = [].
Proof.
  induction m as [m IH] using lt_wf_ind.
  intros frags br w Hm Hin Hlen. rewrite recv_loop_eq.
  pose proof (len_nonneg (concat frags)) as H0.
  destruct (Z.ltb_spec br filesize) as [Hlt|Hge]; [|lia].
  set (n := Z.min 4096 (filesize - br)).
  assert (Hn : 0 < n) by (unfold n; lia).
  unfold recv, on_conn, conn_recv.
  destruct (Z.leb_spec n 0); [lia|]. rewrite Hin.
  destruct (decide (concat frags = [])) as [Ec|Ec].
  - rewrite deliver_empties by exact Ec.
    eexists _, [EvRecv n []]. rewrite Ec. repeat split.
  - destruct (deliver_frags (Z.to_nat n) frags [] ltac:(lia) Ec)
      as (d & frags' & Hd & Hdne & Hdlen & Hcat).
    rewrite !app_nil_r in Hd. rewrite Hd.
    destruct d as [|b d]; [contradiction|].
    set (data := b :: d) in *.
    set (w2 := mkWorld _ _ _).
    assert (Hdec : (length (concat frags') < m)%nat)
      by (rewrite <- Hm, Hcat, length_app; cbn; lia).
    destruct (IH (length (concat frags')) Hdec
                frags' (br + len data) w2 eq_refl eq_refl)
      as (w' & evs & Hrun & Htr & Hrec & Hinb).
    { rewrite Hcat, len_app in Hlen. lia. }
    exists w', (EvRecv n data :: evs).
    rewrite Hrun, Htr. unfold received in *. cbn [reads map snd concat].
    rewrite Hrec, Hcat. cbn. rewrite <- app_assoc. repeat split; auto.
Qed.

(** A path that names a directory passes the existence test of
    [send_file]: the sender connects and writes the header before opening
    the source fails. *)
Example directory_passes_the_guard :
  send_file (str_lit "some/dir")
    (mkSource true (inr 4096) (inl IsADirectoryError)) Connected
    [Data METADATA_OK] []
  = (inr false,
     mkConn [] []
       [EvSocket; EvConnect true; EvSend (be_bytes 4 3); EvSend (b_lit "dir");
        EvSend (be_bytes 8 4096); EvRecv 1024 METADATA_OK; EvClose]).
Proof. vm_compute. reflexivity. Qed.

(** The only exception that leaves [receive_file] is the one raised by the
    handler's own write of the error token. *)
Lemma receive_file_escape w e w' :
  receive_file w = (inl e, w') ->
  e = BrokenPipeError
  /\ exists tr, trace (conn w') = tr ++ [EvSendErr ERROR; EvClose].
Proof.
  unfold receive_file, call, try_finally, try_except, close.
  unfold bind at 1, print at 1.
  destruct (receive_file_try _) as [r1 w1].
  destruct r1 as [[]|[]|e1]; cbn [conn fs console]; try discriminate.
  unfold bind, print, send, on_conn. cbn [conn fs console].
  destruct (conn_send ERROR (conn w1)) as [[e2|[]] c2] eqn:Es; [|discriminate].
  intros H; injection H as <- <-. cbn [conn].
  unfold conn_send in Es.
  destruct (send_faults (conn w1)) as [|[|] later]; try discriminate.
  injection Es as <- <-. split; [reflexivity|].
  exists (trace (conn w1)). unfold conn_close. cbn [trace].
  rewrite <- app_assoc. reflexivity.
Qed.

(** * Further properties of the code *)

(** ** What a write does to the world *)

Lemma no_fault_tail b faults : no_fault (b :: faults) = true -> no_fault faults = true.
Proof. unfold no_fault. cbn. intros H. apply andb_true_iff in H. tauto. Qed.

Lemma send_inv {R : Type} data w (r : res R unit) w' :
  send data w = (r, w') ->
  fs w' = fs w /\ console w' = console w /\ inbox (conn w') = inbox (conn w)
  /\ ((r = Val tt
       /\ trace (conn w') = trace (conn w) ++ [EvSend data]
       /\ send_faults (conn w') = tl (send_faults (conn w))
       /\ hd false (send_faults (conn w)) = false)
      \/ (r = Exc BrokenPipeError
          /\ trace (conn w') = trace (conn w) ++ [EvSendErr data]
          /\ send_faults (conn w') = tl (send_faults (conn w))
          /\ hd false (send_faults (conn w)) = true)).
Proof.
  unfold send, on_conn, conn_send.
  destruct (send_faults (conn w)) as [|[|] later];
    intros H; injection H as <- <-; cbn; repeat split; auto.
Qed.

Lemma send_no_fault {R : Type} data w :
  no_fault (send_faults (conn w)) = true ->
  @send R data w
  = (Val tt,
     mkWorld (mkConn (inbox (conn w)) (tl (send_faults (conn w)))
                (trace (conn w) ++ [EvSend data]))
       (fs w) (console w)).
Proof.
  unfold send, on_conn, conn_send, no_fault.
  destruct (send_faults (conn w)) as [|[|] later]; cbn; try discriminate;
    reflexivity.
Qed.

Lemma no_fault_tl faults : no_fault faults = true -> no_fault (tl faults) = true.
Proof. destruct faults; [auto | apply no_fault_tail]. Qed.

(** ** The header block, summed up *)

Lemma recv_header_summary w r w' :
  recv_header w = (r, w') ->
  exists evs,
    trace (conn w') = trace (conn w) ++ evs
    /\ sent evs = []
    /\ send_faults (conn w') = send_faults (conn w)
    /\ fs w' = fs w
    /\ match r with
       | Val (_, filesize) => 0 <= filesize
       | Ret _ => evs = [EvRecv 4 []]
       | Exc _ => True
       end.
Proof.
  unfold recv_header. unfold bind at 1.
  destruct (recv 4 w) as [r0 w0] eqn:E0.
  destruct (recv_inv _ _ _ _ E0) as (F0 & C0 & S0 & T0).
  destruct r0 as [d0|[]|e0]; [|contradiction|].
  2:{ intros H; injection H as <- <-. eexists. repeat split; eauto. }
  destruct T0 as [T0 _].
  destruct d0 as [|b0 d0].
  { unfold bind, print, return_. intros H; injection H as <- <-. cbn.
    exists [EvRecv 4 []]. repeat split; auto. }
  set (d := b0 :: d0) in *.
  unfold bind at 1, lift.
  destruct (unpack_I d) as [e1|filename_len].
  { unfold raise. intros H; injection H as <- <-.
    eexists. repeat split; eauto. }
  unfold ret, bind at 1, print. unfold bind at 1.
  destruct (recv filename_len _) as [r2 w2] eqn:E2.
  destruct (recv_inv _ _ _ _ E2) as (F2 & C2 & S2 & T2). cbn [conn fs console] in *.
  destruct r2 as [d2|[]|e2]; [|contradiction|].
  2:{ intros H; injection H as <- <-. rewrite T2, T0, <- app_assoc.
      eexists. repeat split; eauto; congruence. }
  destruct T2 as [T2 _].
  unfold bind at 1.
  destruct (utf8_decode d2) as [filename|].
  2:{ unfold raise. intros H; injection H as <- <-. rewrite T2, T0, <- app_assoc.
      eexists. repeat split; eauto; congruence. }
  unfold bind at 1. unfold bind at 1.
  destruct (recv 8 _) as [r3 w3] eqn:E3.
  destruct (recv_inv _ _ _ _ E3) as (F3 & C3 & S3 & T3). cbn [conn fs console] in *.
  destruct r3 as [d3|[]|e3]; [|contradiction|].
  2:{ intros H; injection H as <- <-.
      rewrite T3, T2, T0, <- !app_assoc.
      eexists. repeat split; eauto; congruence. }
  destruct T3 as [T3 _].
  unfold bind at 1.
  destruct (unpack_Q d3) as [e4|filesize] eqn:E4.
  { unfold raise. intros H; injection H as <- <-.
    rewrite T3, T2, T0, <- !app_assoc.
    eexists. repeat split; eauto; congruence. }
  unfold bind. intros H; injection H as <- <-. cbn [conn fs console].
  rewrite T3, T2, T0, <- !app_assoc.
  eexists. repeat split; eauto; try congruence.
  unfold unpack_Q, unpack_uint in E4.
  destruct (decide _); [injection E4 as <-; apply be_value_nonneg | discriminate].
Qed.

Lemma sent_app a b : sent (a ++ b) = sent a ++ sent b.
Proof.
  induction a as [|[] a IH]; cbn; auto. rewrite IH. reflexivity.
Qed.

Lemma no_fault_drop k faults :
  no_fault faults = true -> no_fault (drop k faults) = true.
Proof.
  revert faults. induction k as [|k IH]; intros faults H; [exact H|].
  destruct faults as [|b faults]; [exact H|]. cbn. apply IH.
  eapply no_fault_tail, H.
Qed.

Lemma tl_drop {A} k (l : list A) : tl (drop k l) = drop (S k) l.
Proof.
  revert l. induction k as [|k IH]; intros [|x l]; cbn; auto.
Qed.

(** ** The rest of the [try] block, summed up *)

Lemma receive_payload_summary filename filesize w r w' :
  0 <= filesize ->
  receive_payload filename filesize w = (r, w') ->
  exists evs k,
    trace (conn w') = trace (conn w) ++ evs
    /\ send_faults (conn w') = drop k (send_faults (conn w))
    /\ match r with
       | Val _ => sent evs = [METADATA_OK; OK]
       | Exc _ => (sent evs = [] /\ fs w' = fs w) \/ sent evs = [METADATA_OK]
       | Ret _ => False
       end.
Proof.
  intros Hsize. unfold receive_payload. unfold bind at 1.
  destruct (send METADATA_OK w) as [r0 w0] eqn:E0.
  assert (S0' : send_faults (conn w0) = drop 1 (send_faults (conn w))).
  { destruct (send_inv _ _ _ _ E0) as (_ & _ & _ & [(_ & _ & S0 & _)|(_ & _ & S0 & _)]);
      rewrite S0; destruct (send_faults (conn w)); reflexivity. }
  destruct (send_inv _ _ _ _ E0) as (F0 & C0 & I0 & [(-> & T0 & S0 & _)|(-> & T0 & S0 & _)]).
  2:{ intros H; injection H as <- <-. exists [EvSendErr METADATA_OK], 1%nat.
      repeat split; auto. }
  unfold bind at 1, makedirs, on_fs.
  destruct (fs_makedirs received_files (fs w0)) as [[e1|[]] fs1].
  { intros H; injection H as <- <-. exists [EvSend METADATA_OK], 1%nat.
    cbn [conn]. repeat split; auto. }
  cbv zeta. unfold bind at 1, open_wb, on_fs. cbn [conn fs console].
  destruct (fs_open_wb _ fs1) as [[e2|f] fs2].
  { intros H; injection H as <- <-. exists [EvSend METADATA_OK], 1%nat.
    cbn [conn]. repeat split; auto. }
  unfold bind at 1.
  destruct (recv_loop _ filesize 0 _) as [r3 w3] eqn:E3.
  destruct (recv_loop_inv _ _ _ 0 _ _ _ eq_refl Hsize E3)
    as (evs & _ & T3 & S3 & Hsent & _ & _ & _ & _ & _ & _ & Hr3).
  cbn [conn fs console] in T3, S3.
  destruct Hr3 as [-> | [e3 ->]].
  2:{ intros H; injection H as <- <-. exists (EvSend METADATA_OK :: evs), 1%nat.
      rewrite T3, T0, <- app_assoc. cbn [sent]. rewrite Hsent, S3.
      repeat split; auto. }
  unfold bind at 1, print. cbv beta iota.
  destruct (send OK _) as [r4 w4] eqn:E4.
  destruct (send_inv _ _ _ _ E4) as (F4 & C4 & I4 & [(-> & T4 & S4 & _)|(-> & T4 & S4 & _)]);
    cbn [conn fs console] in *;
    intros H; injection H as <- <-;
    [ exists (EvSend METADATA_OK :: evs ++ [EvSend OK]), 2%nat
    | exists (EvSend METADATA_OK :: evs ++ [EvSendErr OK]), 2%nat ];
    rewrite T4, T3, T0, <- !app_assoc; cbn [sent app];
    rewrite sent_app, Hsent, S4, S3, S0', tl_drop; repeat split; auto.
Qed.

Lemma receive_file_try_summary w r w' :
  receive_file_try w = (r, w') ->
  exists evs k,
    trace (conn w') = trace (conn w) ++ evs
    /\ send_faults (conn w') = drop k (send_faults (conn w))
    /\ match r with
       | Val _ => sent evs = [METADATA_OK; OK]
       | Exc _ => (sent evs = [] /\ fs w' = fs w) \/ sent evs = [METADATA_OK]
       | Ret _ => evs = [EvRecv 4 []] /\ fs w' = fs w
       end.
Proof.
  unfold receive_file_try, bind at 1.
  destruct (recv_header w) as [rh wh] eqn:Eh.
  destruct (recv_header_summary _ _ _ Eh) as (evs & T & Hs & S & F & Hr).
  destruct rh as [[filename filesize]|[]|e].
  - intros H. apply receive_payload_summary in H; [|exact Hr].
    destruct H as (evs' & k & T' & S' & Hr').
    exists (evs ++ evs'), k. rewrite T', T, <- app_assoc, sent_app, Hs, S', S.
    repeat split; auto.
    destruct r as [?|[]|?]; [exact Hr' | contradiction | rewrite <- F; exact Hr'].
  - intros H; injection H as <- <-. exists evs, 0%nat. rewrite S. auto.
  - intros H; injection H as <- <-. exists evs, 0%nat. rewrite S. auto.
Qed.

Lemma hd_drop_fault k faults :
  hd false (drop k faults) = true -> no_fault faults = false.
Proof.
  revert faults. induction k as [|k IH]; intros [|b faults]; cbn; try discriminate.
  - intros ->. reflexivity.
  - intros H. unfold no_fault in *. cbn. rewrite (IH _ H). apply andb_false_r.
Qed.

(** ** A whole session, summed up *)

Lemma receive_file_summary w r w' :
  receive_file w = (r, w') ->
  exists evs k,
    trace (conn w') = trace (conn w) ++ evs ++ [EvClose]
    /\ send_faults (conn w') = drop k (send_faults (conn w))
    /\ ((sent evs = [] /\ fs w' = fs w)
        \/ (sent evs = [ERROR] /\ fs w' = fs w)
        \/ sent evs = [METADATA_OK]
        \/ sent evs = [METADATA_OK; ERROR]
        \/ (sent evs = [METADATA_OK; OK] /\ r = inr tt))
    /\ (forall e, r = inl e ->
                  e = BrokenPipeError
                  /\ no_fault (send_faults (conn w)) = false).
Proof.
  unfold receive_file, call, try_finally, try_except, close.
  unfold bind at 1, print at 1.
  destruct (receive_file_try _) as [r1 w1] eqn:Etry.
  destruct (receive_file_try_summary _ _ _ Etry) as (evs & k & T & Sf & Hr).
  cbn [conn fs console] in T, Sf.
  destruct r1 as [[]|[]|e1]; cbn [conn fs console].
  - intros H; injection H as <- <-. exists evs, k.
    unfold conn_close. cbn [conn fs trace send_faults].
    rewrite T, <- app_assoc. repeat split; auto 10; discriminate.
  - intros H; injection H as <- <-. exists evs, k.
    unfold conn_close. cbn [conn fs trace send_faults].
    destruct Hr as [-> Hfs]. rewrite T, <- app_assoc. cbn [sent].
    repeat split; auto 10; discriminate.
  - unfold bind, print. cbv beta iota.
    destruct (send ERROR _) as [r2 w2] eqn:E2.
    destruct (send_inv _ _ _ _ E2)
      as (F2 & C2 & I2 & [(-> & T2 & S2 & H2)|(-> & T2 & S2 & H2)]);
      cbn [conn fs console] in *;
      intros H; injection H as <- <-;
      unfold conn_close; cbn [conn fs trace send_faults].
    + exists (evs ++ [EvSend ERROR]), (S k).
      rewrite T2, T, <- !app_assoc, S2, Sf, tl_drop, sent_app. cbn [sent].
      repeat split; try discriminate.
      destruct Hr as [[-> Hfs] | ->]; cbn [app]; rewrite ?F2; auto 10.
    + exists (evs ++ [EvSendErr ERROR]), (S k).
      rewrite T2, T, <- !app_assoc, S2, Sf, tl_drop, sent_app. cbn [sent].
      rewrite app_nil_r. repeat split.
      * destruct Hr as [[-> Hfs] | ->]; rewrite ?F2; auto 10.
      * congruence.
      * rewrite Sf in H2. eapply hd_drop_fault, H2.
Qed.

(** ** The receiver's side of the protocol *)

(** X1.  Whatever the peer and the transport do, the tokens a session
    writes are one of five sequences: nothing, [ERROR], [METADATA_OK],
    [METADATA_OK; ERROR] or [METADATA_OK; OK]; and the last thing the
    session does on the connection is to close it. *)
Theorem session_tokens_and_close (w : World) :
  exists evs,
    trace (conn (snd (receive_file w))) = trace (conn w) ++ evs ++ [EvClose]
    /\ In (sent evs)
          [[]; [ERROR]; [METADATA_OK]; [METADATA_OK; ERROR]; [METADATA_OK; OK]].
Proof.
  destruct (receive_file w) as [r w'] eqn:E.
  destruct (receive_file_summary _ _ _ E) as (evs & k & T & _ & Hs & _).
  exists evs. split; [exact T|]. cbn [In].
  destruct Hs as [[-> _]|[[-> _]|[->|[->|[-> _]]]]]; auto 10.
Qed.

(** X2.  A session that does not get as far as writing [METADATA_OK]
    leaves the file system exactly as it found it. *)
Theorem no_acknowledgment_no_file_change (w : World) :
  exists evs,
    trace (conn (snd (receive_file w))) = trace (conn w) ++ evs ++ [EvClose]
    /\ (In METADATA_OK (sent evs) \/ fs (snd (receive_file w)) = fs w).
Proof.
  destruct (receive_file w) as [r w'] eqn:E.
  destruct (receive_file_summary _ _ _ E) as (evs & k & T & _ & Hs & _).
  exists evs. split; [exact T|]. cbn [snd].
  destruct Hs as [[_ ->]|[[_ ->]|[->|[->|[-> _]]]]]; cbn [In]; auto.
Qed.

Lemma receive_file_returns (w : World) :
  no_fault (send_faults (conn w)) = true ->
  fst (receive_file w) = inr tt
  /\ no_fault (send_faults (conn (snd (receive_file w)))) = true.
Proof.
  intros Hok. destruct (receive_file w) as [r w'] eqn:E.
  destruct (receive_file_summary _ _ _ E) as (evs & k & _ & Sf & _ & Hesc).
  cbn [fst snd]. split.
  - destruct r as [e|[]]; [|reflexivity].
    destruct (Hesc e eq_refl) as [_ Hf]. congruence.
  - rewrite Sf. apply no_fault_drop, Hok.
Qed.

(** X3.  On a connection that takes every write, [receive_file] returns
    normally whatever else happens: every error of the session is caught
    and reported inside it. *)
Theorem session_returns_when_writes_succeed (w : World) :
  no_fault (send_faults (conn w)) = true ->
  fst (receive_file w) = inr tt
  /\ no_fault (send_faults (conn (snd (receive_file w)))) = true.
Proof. apply receive_file_returns. Qed.

Lemma session_returns_when_writes_succeed_witness :
  fst (receive_file (session split_length_field)) = inr tt
  /\ no_fault (send_faults (conn (snd (receive_file (session split_length_field)))))
     = true.
Proof.
  apply (session_returns_when_writes_succeed (session split_length_field)).
  reflexivity.
Defined.

(** ** The accept loop *)

Lemma accept_loop_well_behaved pre :
  forall post s,
    forallb well_behaved pre = true ->
    exists s',
      accept_loop (pre ++ post) s = accept_loop post s'
      /\ length (served s') = (length (served s) + length pre)%nat.
Proof.
  induction pre as [|a pre IH]; intros post s Hgood.
  - exists s. split; [reflexivity | cbn; lia].
  - cbn [forallb] in Hgood. apply andb_true_iff in Hgood as [Ha Hpre].
    destruct a as [c|]; [|discriminate]. cbn [well_behaved] in Ha.
    cbn [app accept_loop].
    pose proof (receive_file_returns
                  (mkWorld c (srv_fs s) (srv_console s)) Ha) as [Hr _].
    destruct (receive_file _) as [r w']. cbn [fst] in Hr. subst r.
    destruct (IH post (mkServer (fs w') (console w') (served s ++ [conn w'])) Hpre)
      as (s' & Hrun & Hlen).
    exists s'. split; [exact Hrun|].
    rewrite Hlen. cbn [served length]. rewrite length_app. cbn. lia.
Qed.

(** X4.  As long as the clients' connections take every write, the accept
    loop serves every client in turn and goes back to waiting in [accept],
    however the sessions themselves end. *)
Theorem listener_serves_every_client (arrivals : list accepted) (fs0 : FS) :
  forallb well_behaved arrivals = true ->
  fst (start_server arrivals fs0) = Accepting
  /\ length (served (snd (start_server arrivals fs0))) = length arrivals.
Proof.
  intros Hgood. unfold start_server.
  destruct (accept_loop_well_behaved arrivals [] (mkServer fs0 [MsgListening] []) Hgood)
    as (s' & Hrun & Hlen).
  rewrite app_nil_r in Hrun. rewrite Hrun. cbn. split; [reflexivity | exact Hlen].
Qed.

Lemma listener_serves_every_client_witness :
  fst (start_server [Connection split_length_field; Connection early_close;
                     Connection good_client] ∅) = Accepting
  /\ length (served (snd (start_server
                            [Connection split_length_field;
                             Connection early_close;
                             Connection good_client] ∅)))
     = length [Connection split_length_field; Connection early_close;
               Connection good_client].
Proof.
  apply (listener_serves_every_client
           [Connection split_length_field; Connection early_close;
            Connection good_client] ∅).
  reflexivity.
Defined.

(** X5.  A keyboard interrupt while waiting in [accept] ends the loop: the
    clients that came before have been served, the shutdown line is
    printed, and no arrival after the interrupt is accepted. *)
Theorem interrupt_stops_the_listener
    (pre post : list accepted) (fs0 : FS) :
  forallb well_behaved pre = true ->
  fst (start_server (pre ++ Interrupt :: post) fs0) = ShutDown
  /\ length (served (snd (start_server (pre ++ Interrupt :: post) fs0)))
     = length pre
  /\ List.last (srv_console (snd (start_server (pre ++ Interrupt :: post) fs0)))
       MsgListening = MsgShuttingDown.
Proof.
  intros Hgood. unfold start_server.
  destruct (accept_loop_well_behaved pre (Interrupt :: post)
              (mkServer fs0 [MsgListening] []) Hgood)
    as (s' & Hrun & Hlen).
  rewrite Hrun. cbn [accept_loop fst snd served srv_console].
  repeat split; [exact Hlen|]. apply last_last.
Qed.

Lemma interrupt_stops_the_listener_witness :
  fst (start_server ([Connection good_client] ++ Interrupt :: [Connection early_close]) ∅)
  = ShutDown
  /\ length (served (snd (start_server
                            ([Connection good_client]
                             ++ Interrupt :: [Connection early_close]) ∅)))
     = length [Connection good_client]
  /\ List.last (srv_console
                  (snd (start_server
                          ([Connection good_client]
                           ++ Interrupt :: [Connection early_close]) ∅)))
       MsgListening = MsgShuttingDown.
Proof.
  apply (interrupt_stops_the_listener [Connection good_client]
           [Connection early_close] ∅).
  reflexivity.
Defined.

(** ** Paths *)

Lemma span_nosep_prefix b a :
  no_sep b = true -> span_nosep (b ++ sep :: a) = (b, sep :: a).
Proof.
  induction b as [|c b IH]; cbn [app span_nosep no_sep forallb]; intros H.
  - rewrite Z.eqb_refl. reflexivity.
  - apply andb_true_iff in H as [Hc Hb]. apply negb_true_iff in Hc.
    rewrite Hc, (IH Hb). reflexivity.
Qed.

Lemma span_nosep_whole b : no_sep b = true -> span_nosep b = (b, []).
Proof.
  induction b as [|c b IH]; cbn [span_nosep no_sep forallb]; intros H.
  - reflexivity.
  - apply andb_true_iff in H as [Hc Hb]. apply negb_true_iff in Hc.
    rewrite Hc, (IH Hb). reflexivity.
Qed.

Lemma span_nosep_fst p : no_sep (fst (span_nosep p)) = true.
Proof.
  induction p as [|c p IH]; cbn [span_nosep]; [reflexivity|].
  destruct (c =? sep) eqn:E; [reflexivity|].
  destruct (span_nosep p) as [a b]. cbn [fst no_sep forallb] in *.
  rewrite E. exact IH.
Qed.

Lemma no_sep_rev p : no_sep (rev p) = no_sep p.
Proof.
  unfold no_sep. induction p as [|c p IH]; [reflexivity|].
  cbn [rev forallb]. rewrite forallb_app, IH. cbn. rewrite andb_true_r.
  apply andb_comm.
Qed.

Lemma basename_no_sep p : no_sep (basename p) = true.
Proof. unfold basename. rewrite no_sep_rev. apply span_nosep_fst. Qed.

Lemma basename_under a b : no_sep b = true -> basename (a ++ sep :: b) = b.
Proof.
  intros H. unfold basename. rewrite rev_app_distr. cbn [rev].
  rewrite <- app_assoc. cbn [app].
  rewrite span_nosep_prefix by (rewrite no_sep_rev; exact H).
  cbn [fst]. apply rev_involutive.
Qed.

Lemma path_join_relative name :
  no_sep name = true ->
  path_join received_files name = received_files ++ sep :: name.
Proof.
  intros H. unfold path_join.
  change (List.last received_files sep =? sep) with false.
  destruct name as [|c name]; [reflexivity|].
  cbn [no_sep forallb] in H. apply andb_true_iff in H as [Hc _].
  apply negb_true_iff in Hc. rewrite Hc. reflexivity.
Qed.

(** ** A complete transfer, seen from the receiver *)

Lemma fsencode_app (a b : pystr) :
  fsencode (a ++ b)
  = match fsencode a, fsencode b with
    | Some x, Some y => Some (x ++ y)
    | _, _ => None
    end.
Proof.
  induction a as [|c a IH]; cbn [app fsencode].
  - destruct (fsencode b); reflexivity.
  - rewrite IH. destruct (fsencode_cp c), (fsencode a), (fsencode b);
      try reflexivity. rewrite app_assoc. reflexivity.
Qed.

Lemma split_sep_no_sep (b : pystr) : no_sep b = true -> split_sep b = [b].
Proof.
  induction b as [|c b IH]; cbn [split_sep no_sep forallb]; intros H.
  - reflexivity.
  - apply andb_true_iff in H as [Hc Hb]. apply negb_true_iff in Hc.
    rewrite Hc, (IH Hb). reflexivity.
Qed.

Lemma split_sep_app (a b : pystr) :
  no_sep a = true -> split_sep (a ++ sep :: b) = a :: split_sep b.
Proof.
  induction a as [|c a IH]; cbn [app split_sep no_sep forallb]; intros H.
  - rewrite Z.eqb_refl. reflexivity.
  - apply andb_true_iff in H as [Hc Ha]. apply negb_true_iff in Hc.
    rewrite Hc, (IH Ha). reflexivity.
Qed.

Lemma plain_name_inv (name : pystr) :
  plain_name name = true ->
  no_sep name = true /\ names_directory name = false /\ has_nul name = false
  /\ exists b, fsencode name = Some b /\ len b <= NAME_MAX.
Proof.
  unfold plain_name. intros H.
  apply andb_true_iff in H as [H H4]. apply andb_true_iff in H as [H H3].
  apply andb_true_iff in H as [H1 H2].
  apply negb_true_iff in H2. apply negb_true_iff in H3.
  destruct (fsencode name) as [b|]; [|discriminate].
  repeat split; auto. exists b. split; [reflexivity|]. lia.
Qed.

(** Opening a plain name directly inside the output directory. *)
Lemma fs_open_wb_plain (name : pystr) (fs1 : FS) :
  plain_name name = true ->
  fs1 !! received_files = Some Dir ->
  fs1 !! (received_files ++ sep :: name) <> Some Dir ->
  fs_open_wb (received_files ++ sep :: name) fs1
  = (inr (received_files ++ sep :: name),
     <[received_files ++ sep :: name := File []]> fs1).
Proof.
  intros Hplain Hdir Hfile.
  destruct (plain_name_inv _ Hplain) as (Hsep & Hnd & Hnul & b & Hb & Hlen).
  assert (Hne : name <> []) by (intros ->; discriminate Hnd).
  unfold fs_open_wb.
  rewrite fsencode_app. change (fsencode received_files) with (Some (b_lit "received_files")).
  cbn [fsencode]. rewrite Hb.
  change (fsencode_cp sep) with (Some [byte_of_Z 47]).
  unfold has_nul in *. rewrite existsb_app. cbn [existsb].
  change (existsb (Z.eqb 0) received_files) with false.
  change (0 =? sep) with false. rewrite Hnul. cbn [orb].
  rewrite bool_decide_eq_false_2
    by (intros E; apply (f_equal (@length Z)) in E; rewrite length_app in E;
        cbn in E; lia).
  destruct (Z.leb_spec PATH_MAX (len (b_lit "received_files" ++ [byte_of_Z 47] ++ b)))
    as [Hlong|_].
  { rewrite !len_app in Hlong. change (len (b_lit "received_files")) with 14 in Hlong.
    change (len [byte_of_Z 47]) with 1 in Hlong. unfold PATH_MAX, NAME_MAX in *. lia. }
  change (hd 0 (received_files ++ sep :: name) =? sep) with false.
  cbv zeta.
  rewrite (split_sep_app received_files name eq_refl), (split_sep_no_sep _ Hsep).
  assert (Hstrip : strip_trailing [received_files; name] = [received_files; name]).
  { unfold strip_trailing. cbn [rev app].
    destruct name as [|c name']; [contradiction|]. reflexivity. }
  rewrite Hstrip. cbn [removelast List.last].
  cbn [walk].
  rewrite (bool_decide_eq_false_2 (received_files = [])) by discriminate.
  rewrite (bool_decide_eq_false_2 (received_files = dot)) by discriminate.
  rewrite (bool_decide_eq_false_2 (received_files = dotdot)) by discriminate.
  cbn [orb].
  change (NAME_MAX <? name_len received_files) with false. cbv iota.
  change (key_of false ([] ++ [received_files])) with (received_files ++ []).
  rewrite app_nil_r, Hdir, Hnd. cbn [length Nat.eqb negb].
  unfold name_len. rewrite Hb.
  destruct (Z.ltb_spec NAME_MAX (len b)) as [|_]; [lia|].
  change (key_of false (([] ++ [received_files]) ++ [name]))
    with (received_files ++ (sep :: name) ++ []).
  rewrite app_nil_r.
  destruct (fs1 !! (received_files ++ sep :: name)) as [[|content]|];
    [contradiction| |]; reflexivity.
Qed.

Lemma fs_makedirs_ready (fs0 : FS) :
  fs0 !! received_files = None \/ fs0 !! received_files = Some Dir ->
  fs_makedirs received_files fs0 = (inr tt, <[received_files := Dir]> fs0).
Proof.
  unfold fs_makedirs. intros [H|H]; rewrite H; [reflexivity|].
  rewrite (insert_id _ _ _ H). reflexivity.
Qed.

Lemma receive_payload_complete name filesize frags rest w :
  plain_name name = true ->
  0 <= filesize ->
  inbox (conn w) = map Data frags ++ rest ->
  len (concat frags) = filesize ->
  no_fault (send_faults (conn w)) = true ->
  fs w !! received_files = None \/ fs w !! received_files = Some Dir ->
  fs w !! (received_files ++ sep :: name) <> Some Dir ->
  exists w' evs empties,
    receive_payload name filesize w = (Val tt, w')
    /\ trace (conn w') = trace (conn w) ++ EvSend METADATA_OK :: evs ++ [EvSend OK]
    /\ sent evs = []
    /\ received evs = concat frags
    /\ fs w' = <[received_files ++ sep :: name := File (concat frags)]>
                 (<[received_files := Dir]> (fs w))
    /\ inbox (conn w') = map Data empties ++ rest
    /\ concat empties = []
    /\ send_faults (conn w') = drop 2 (send_faults (conn w))
    /\ List.last (console w') MsgConnection
       = MsgReceived (received_files ++ sep :: name).
Proof.
  intros Hplain Hsize Hin Hlen Hok Hdir Hfile.
  assert (Hsep : no_sep name = true) by (apply plain_name_inv in Hplain; tauto).
  destruct w as [[inb faults tr] fs0 con]. cbn [conn fs console inbox send_faults trace] in *.
  assert (Hne : received_files ++ sep :: name <> received_files)
    by (rewrite <- (path_join_relative _ Hsep); apply path_join_received_files).
  unfold receive_payload. unfold bind at 1.
  rewrite send_no_fault by exact Hok. cbn [conn fs console inbox send_faults trace].
  unfold bind at 1, makedirs, on_fs. cbn [conn fs console].
  rewrite (fs_makedirs_ready _ Hdir). cbv zeta.
  rewrite (path_join_relative _ Hsep).
  unfold bind at 1, open_wb, on_fs. cbn [conn fs console].
  rewrite fs_open_wb_plain;
    [ | exact Hplain | apply lookup_insert_eq
      | rewrite lookup_insert_ne by (intros E; apply Hne; symmetry; exact E);
        exact Hfile ].
  unfold bind at 1.
  set (w3 := mkWorld _ _ _).
  destruct (recv_loop_complete (received_files ++ sep :: name) filesize _ frags rest 0 w3 eq_refl Hin
              ltac:(lia))
    as (w4 & evs & empties & Hrun & Htr & Hrec & Hinb & Hemp).
  destruct (recv_loop_inv (received_files ++ sep :: name) filesize _ 0 w3 _ w4 eq_refl Hsize Hrun)
    as (evs' & msgs & Htr' & Hsf & Hsent & _ & Hcon & _ & _ & _ & Hfs & _).
  assert (evs' = evs) as ->
    by (eapply app_inv_head; rewrite <- Htr, <- Htr'; reflexivity).
  rewrite Hrun. unfold bind at 1, print. cbv beta iota.
  rewrite send_no_fault
    by (cbn [conn send_faults]; rewrite Hsf; apply no_fault_tl, Hok).
  cbn [conn fs console inbox send_faults trace] in *.
  eexists _, evs, empties. split; [reflexivity|].
  cbn [conn fs console inbox send_faults trace].
  rewrite Htr, Hsf, Hfs, Hrec, <- !app_assoc. cbn [app].
  subst w3. cbn [conn fs console inbox send_faults trace].
  repeat split; auto.
  - rewrite <- app_assoc. reflexivity.
  - unfold fs_write. rewrite lookup_insert_eq, insert_insert_eq. reflexivity.
  - destruct faults as [|? [|? ?]]; reflexivity.
  - apply last_last.
Qed.

Lemma receive_file_complete
    (name : pystr) (name_field : bytes) (filesize : Z)
    (frags : list bytes) (rest : list segment) (w : World) :
  header_arrives (inbox (conn w)) (be_bytes 4 (len name_field)) name_field
    (be_bytes 8 filesize) (map Data frags ++ rest) ->
  utf8_decode name_field = Some name ->
  len name_field < 2 ^ 32 ->
  0 <= filesize < 2 ^ 64 ->
  plain_name name = true ->
  len (concat frags) = filesize ->
  no_fault (send_faults (conn w)) = true ->
  fs w !! received_files = None \/ fs w !! received_files = Some Dir ->
  fs w !! (received_files ++ sep :: name) <> Some Dir ->
  exists w' evs empties,
    receive_file w = (inr tt, w')
    /\ trace (conn w') = trace (conn w) ++ evs ++ [EvClose]
    /\ sent evs = [METADATA_OK; OK]
    /\ fs w' = <[received_files ++ sep :: name := File (concat frags)]>
                 (<[received_files := Dir]> (fs w))
    /\ inbox (conn w') = map Data empties ++ rest
    /\ concat empties = []
    /\ List.last (console w') MsgConnection
       = MsgReceived (received_files ++ sep :: name).
Proof.
  intros (inb1 & inb2 & O1 & O2 & O3) Hdec Hname Hsize Hplain Hlen Hok Hdir Hfile.
  pose proof (len_nonneg name_field) as Hl0.
  set (w0 := mkWorld (conn w) (fs w) (console w ++ [MsgConnection])).
  assert (L1 : len (be_bytes 4 (len name_field)) = 4)
    by (unfold len at 1; rewrite be_bytes_length; reflexivity).
  assert (L3 : len (be_bytes 8 filesize) = 8)
    by (unfold len; rewrite be_bytes_length; reflexivity).
  assert (U1 : unpack_I (be_bytes 4 (len name_field)) = inr (len name_field))
    by (apply unpack_pack_uint, pack_uint_ok; lia).
  assert (U3 : unpack_Q (be_bytes 8 filesize) = inr filesize)
    by (apply unpack_pack_uint, pack_uint_ok; lia).
  destruct (recv_header_offers w0 name filesize
              (be_bytes 4 (len name_field)) name_field (be_bytes 8 filesize)
              inb1 inb2 (map Data frags ++ rest) O1 O2 O3 L1 L3 U1 Hdec U3)
    as (w1 & Hh & Hinb & Hfs & Hsf).
  destruct (recv_header_summary _ _ _ Hh) as (evs_h & T1 & Hs1 & _).
  cbn [conn fs console] in Hfs, Hsf, T1.
  destruct (receive_payload_complete name filesize frags rest w1)
    as (w2 & evs & empties & Hp & T2 & Hs2 & _ & Hfs2 & Hinb2 & Hemp & Hsf2 & Hlast);
    try assumption; try (rewrite ?Hfs, ?Hsf; assumption); [lia|].
  assert (Htry : receive_file_try w0 = (Val tt, w2))
    by (unfold receive_file_try, bind at 1; rewrite Hh; exact Hp).
  unfold receive_file, call, try_finally, try_except, close.
  unfold bind at 1, print at 1. fold w0. rewrite Htry.
  eexists _, (evs_h ++ EvSend METADATA_OK :: evs ++ [EvSend OK]), empties.
  split; [reflexivity|].
  unfold conn_close. cbn [conn fs console inbox send_faults trace].
  rewrite T2, T1, Hfs2, Hfs, <- !app_assoc, sent_app, Hs1. cbn [app sent].
  rewrite sent_app, Hs2. repeat split; auto.
Qed.

(** ** The output directory *)






(** X7.  A complete transfer is stored as sent.  When the three header
    fields arrive whole, the name is a plain file name, the declared number
    of payload bytes follows in whatever fragments, the connection takes the
    writes, and on disk the output directory is there or can be made and the
    destination is not a directory: the session writes [METADATA_OK] and
    [OK], returns normally, and leaves at [received_files/name] a file that
    holds exactly the payload (replacing what a file of that name held
    before); nothing after the payload is read. *)
Theorem complete_transfer_is_stored
    (name : pystr) (name_field : bytes) (filesize : Z)
    (frags : list bytes) (rest : list segment) (w : World) :
  header_arrives (inbox (conn w)) (be_bytes 4 (len name_field)) name_field
    (be_bytes 8 filesize) (map Data frags ++ rest) ->
  utf8_decode name_field = Some name ->
  len name_field < 2 ^ 32 ->
  0 <= filesize < 2 ^ 64 ->
  plain_name name = true ->
  len (concat frags) = filesize ->
  no_fault (send_faults (conn w)) = true ->
  fs w !! received_files = None \/ fs w !! received_files = Some Dir ->
  fs w !! (received_files ++ sep :: name) <> Some Dir ->
  exists w' evs empties,
    receive_file w = (inr tt, w')
    /\ trace (conn w') = trace (conn w) ++ evs ++ [EvClose]
    /\ sent evs = [METADATA_OK; OK]
    /\ fs w' = <[received_files ++ sep :: name := File (concat frags)]>
                 (<[received_files := Dir]> (fs w))
    /\ inbox (conn w') = map Data empties ++ rest
    /\ concat empties = []
    /\ List.last (console w') MsgConnection
       = MsgReceived (received_files ++ sep :: name).
Proof. apply receive_file_complete. Qed.

Lemma complete_transfer_is_stored_witness :
  exists w' evs empties,
    receive_file (session good_client) = (inr tt, w')
    /\ trace (conn w') = trace (conn (session good_client)) ++ evs ++ [EvClose]
    /\ sent evs = [METADATA_OK; OK]
    /\ fs w' = <[received_files ++ sep :: str_lit "a.b" := File (concat [b_lit "hello"])]>
                 (<[received_files := Dir]> (fs (session good_client)))
    /\ inbox (conn w') = map Data empties ++ []
    /\ concat empties = []
    /\ List.last (console w') MsgConnection
       = MsgReceived (received_files ++ sep :: str_lit "a.b").
Proof.
  apply (complete_transfer_is_stored (str_lit "a.b") (b_lit "a.b") 5
           [b_lit "hello"] [] (session good_client)).
  - exists [Data (b_lit "a.b"); Data (be_bytes 8 5); Data (b_lit "hello")],
      [Data (be_bytes 8 5); Data (b_lit "hello")].
    repeat split; intros faults tr; reflexivity.
  - vm_compute. reflexivity.
  - vm_compute. reflexivity.
  - split; vm_compute; [discriminate | reflexivity].
  - vm_compute. reflexivity.
  - vm_compute. reflexivity.
  - reflexivity.
  - left. vm_compute. reflexivity.
  - vm_compute. discriminate.
Defined.

(** ** The first read of a session *)

(** X8.  When the first read finds the connection closed, the session ends
    without a word: no token is written, nothing is reported as an error,
    the file system is untouched.  When it finds between one and three
    bytes, [struct.unpack] rejects them and the session answers [ERROR],
    again without touching the file system. *)
Theorem short_first_read
    (faults : list bool) (tr : list io_event) (fs0 : FS) (con : list msg) :
  receive_file (mkWorld (mkConn [] faults tr) fs0 con)
  = (inr tt,
     mkWorld (mkConn [] faults (tr ++ [EvRecv 4 []; EvClose])) fs0
       (con ++ [MsgConnection; MsgNoData]))
  /\ (forall bs rest,
         bs <> [] -> (length bs < 4)%nat -> no_fault faults = true ->
         receive_file (mkWorld (mkConn (Data bs :: rest) faults tr) fs0 con)
         = (inr tt,
            mkWorld (mkConn rest (tl faults)
                       (tr ++ [EvRecv 4 bs; EvSend ERROR; EvClose])) fs0
              (con ++ [MsgConnection; MsgError StructError]))).
Proof.
  split.
  - unfold receive_file, call, try_finally, try_except, close, receive_file_try,
      recv_header, bind, recv, on_conn, print, return_, conn_close.
    cbn. rewrite <- !app_assoc. reflexivity.
  - intros bs rest Hne Hlen Hok.
    unfold receive_file, call, try_finally, try_except, close, receive_file_try,
      recv_header.
    unfold bind at 1, print at 1. unfold bind at 1. unfold bind at 1.
    unfold recv at 1, on_conn, conn_recv.
    cbn [conn fs console inbox send_faults trace Z.leb Z.compare].
    rewrite deliver_whole by (first [exact Hne | cbn; lia]).
    destruct bs as [|b0 bs]; [contradiction|].
    unfold bind at 1, lift, unpack_I, unpack_uint.
    destruct (decide (length (b0 :: bs) = 4%nat)) as [E|_]; [lia|].
    unfold raise. unfold bind at 1, print. cbv beta iota.
    rewrite send_no_fault by exact Hok.
    unfold conn_close. cbn [conn fs console inbox send_faults trace].
    rewrite <- !app_assoc. reflexivity.
Qed.

Lemma short_first_read_witness :
  receive_file (mkWorld (mkConn (Data (b_lit "ab") :: [Data (b_lit "cd")]) [] []) ∅ [])
  = (inr tt,
     mkWorld (mkConn [Data (b_lit "cd")] (tl [])
                ([] ++ [EvRecv 4 (b_lit "ab"); EvSend ERROR; EvClose])) ∅
       ([] ++ [MsgConnection; MsgError StructError])).
Proof.
  apply (proj2 (short_first_read [] [] ∅ []) (b_lit "ab") [Data (b_lit "cd")]).
  - discriminate.
  - vm_compute. lia.
  - reflexivity.
Defined.

(** ** What the sender streams *)

Lemma read_span_step x : 0 < x -> read_span x = 4096 + read_span (x - 4096).
Proof.
  intros Hx. unfold read_span.
  destruct (Z.leb_spec x 0); [lia|].
  replace (x + 4095) with ((x - 4096 + 4095) + 1 * 4096) by lia.
  rewrite Z.div_add by lia.
  destruct (Z.leb_spec (x - 4096) 0).
  - assert ((x - 4096 + 4095) / 4096 = 0) as -> by (apply Z.div_small; lia).
    reflexivity.
  - lia.
Qed.

Lemma read_span_nonneg x : 0 <= read_span x.
Proof.
  unfold read_span. destruct (Z.leb_spec x 0); [lia|].
  assert (0 <= (x + 4095) / 4096) by (apply Z.div_pos; lia). lia.
Qed.

Lemma read_span_ge x : x <= read_span x \/ (x <= 0 /\ read_span x = 0).
Proof.
  unfold read_span. destruct (Z.leb_spec x 0); [right; lia|]. left.
  pose proof (Z.div_mod (x + 4095) 4096 ltac:(lia)).
  pose proof (Z.mod_pos_bound (x + 4095) 4096 ltac:(lia)). lia.
Qed.

Lemma conn_send_no_fault data c :
  no_fault (send_faults c) = true ->
  conn_send data c
  = (inr tt, mkConn (inbox c) (tl (send_faults c)) (trace c ++ [EvSend data])).
Proof.
  unfold conn_send, no_fault.
  destruct (send_faults c) as [|[|] later]; cbn; try discriminate; reflexivity.
Qed.

Lemma drop_tl {A} n (l : list A) : drop n (tl l) = drop (S n) l.
Proof. destruct l; [cbn [tl]; rewrite !drop_nil|]; reflexivity. Qed.

(** With every write taken, the streaming loop sends the source from its
    start, in chunks of at most 4096 bytes, as far as the declared size
    rounded up to whole chunks reaches, or to the end of the source if that
    comes first. *)
Lemma send_loop_payload m :
  forall f filesize bytes_sent c,
    length f = m ->
    no_fault (send_faults c) = true ->
    exists chunks,
      send_loop f filesize bytes_sent c
      = (Val tt,
         mkConn (inbox c) (drop (length chunks) (send_faults c))
           (trace c ++ map EvSend chunks))
      /\ concat chunks
         = take (Z.to_nat (read_span (filesize - bytes_sent))) f
      /\ forallb is_chunk chunks = true.
Proof.
  induction m as [m IH] using lt_wf_ind.
  intros f filesize bs c Hm Hok. rewrite send_loop_eq.
  assert (Hc : c = mkConn (inbox c) (drop 0 (send_faults c)) (trace c ++ map EvSend []))
    by (destruct c; cbn; rewrite app_nil_r; reflexivity).
  destruct (Z.ltb_spec bs filesize) as [Hlt|Hge].
  2:{ exists []. split; [cbn [length]; congruence|]. split; [|reflexivity].
      unfold read_span. destruct (Z.leb_spec (filesize - bs) 0); [|lia].
      reflexivity. }
  destruct (take 4096 f) as [|b chunk'] eqn:Et.
  { exists []. split; [cbn [length]; congruence|]. split; [|reflexivity].
    destruct f; [rewrite take_nil; reflexivity | discriminate]. }
  assert (Hclen : (0 < length (b :: chunk') <= 4096)%nat).
  { rewrite <- Et, length_take.
    assert (0 < length f)%nat
      by (destruct f; [rewrite take_nil in Et; discriminate Et | cbn; lia]).
    lia. }
  set (chunk := b :: chunk') in *.
  pose proof (take_drop 4096 f) as Htd. rewrite Et in Htd.
  assert (Hdec : (length (drop 4096 f) < m)%nat)
    by (rewrite <- Hm; apply (f_equal length) in Htd;
        rewrite length_app in Htd; lia).
  unfold sock_send, io. rewrite conn_send_no_fault by exact Hok.
  destruct (IH (length (drop 4096 f)) Hdec
              (drop 4096 f) filesize (bs + len chunk)
              (mkConn (inbox c) (tl (send_faults c)) (trace c ++ [EvSend chunk]))
              eq_refl (no_fault_tl _ Hok))
    as (chunks & Hrun & Hcat & Hall).
  exists (chunk :: chunks). rewrite Hrun. cbn [inbox trace send_faults map concat length].
  rewrite <- app_assoc, Hcat, drop_tl. cbn [app]. split; [reflexivity|split].
  - rewrite (read_span_step (filesize - bs)) by lia.
    pose proof (read_span_nonneg (filesize - bs - 4096)) as Hnn.
    rewrite Z2Nat.inj_add by lia.
    change (Z.to_nat 4096) with 4096%nat.
    rewrite <- take_take_drop, Et.
    destruct (Nat.eq_dec (length chunk) 4096%nat) as [Efull|Eshort].
    + replace (filesize - (bs + len chunk)) with (filesize - bs - 4096)
        by (unfold len; lia). reflexivity.
    + assert (Hend : drop 4096 f = []).
      { apply drop_ge. apply (f_equal length) in Et. rewrite length_take in Et.
        lia. }
      rewrite Hend, !take_nil. reflexivity.
  - cbn [forallb]. rewrite Hall. unfold is_chunk, len.
    destruct (Z.ltb_spec 0 (Z.of_nat (length chunk))); [|lia].
    destruct (Z.leb_spec (Z.of_nat (length chunk)) 4096); [|lia]. reflexivity.
Qed.

Lemma send_header_no_fault name filename_bytes filesize c :
  utf8_encode name = Some filename_bytes ->
  len filename_bytes < 2 ^ 32 ->
  0 <= filesize < 2 ^ 64 ->
  no_fault (send_faults c) = true ->
  send_header name filesize c
  = (Val tt,
     mkConn (inbox c) (drop 3 (send_faults c))
       (trace c ++ map EvSend [be_bytes 4 (len filename_bytes); filename_bytes;
                               be_bytes 8 filesize])).
Proof.
  intros Henc Hl Hs Hf.
  unfold send_header, bind, lift, ret, sock_send, io, pack_I, pack_Q.
  rewrite Henc.
  rewrite (pack_uint_ok 4) by (pose proof (len_nonneg filename_bytes); lia).
  rewrite (pack_uint_ok 8) by lia.
  rewrite conn_send_no_fault by exact Hf. cbn [inbox send_faults trace].
  rewrite conn_send_no_fault by (cbn; apply no_fault_tl, Hf).
  cbn [inbox send_faults trace].
  rewrite conn_send_no_fault by (cbn; apply no_fault_tl, no_fault_tl, Hf).
  cbn [inbox send_faults trace map].
  rewrite <- !app_assoc. cbn [app].
  do 2 f_equal. destruct (send_faults c) as [|? [|? [|? ?]]]; reflexivity.
Qed.

(** A run of [send_file] in which nothing fails up to the streaming of the
    payload. *)
Lemma send_file_streams
    (filename : pystr) (src : Source) (filename_bytes content : bytes)
    (filesize : Z) (rest : list segment) (faults : list bool) :
  src_exists src = true ->
  src_getsize src = inr filesize ->
  src_open src = inr content ->
  0 <= filesize < 2 ^ 64 ->
  utf8_encode (basename filename) = Some filename_bytes ->
  len filename_bytes < 2 ^ 32 ->
  no_fault faults = true ->
  exists chunks,
    concat chunks = take (Z.to_nat (read_span filesize)) content
    /\ forallb is_chunk chunks = true
    /\ send_file filename src Connected (Data METADATA_OK :: rest) faults
       = match conn_recv 1024
                 (mkConn rest (drop (3 + length chunks) faults)
                    ([EvSocket; EvConnect true]
                     ++ map EvSend [be_bytes 4 (len filename_bytes);
                                    filename_bytes; be_bytes 8 filesize]
                     ++ [EvRecv 1024 METADATA_OK]
                     ++ map EvSend chunks)) with
         | (inr final_ack, c) => (inr (bool_decide (final_ack = OK)), conn_close c)
         | (inl _, c) => (inr false, conn_close c)
         end.
Proof.
  intros Hex Hsize Hopen Hrange Henc Hname Hok.
  set (c1 := mkConn rest (drop 3 faults)
               ([EvSocket; EvConnect true]
                ++ map EvSend [be_bytes 4 (len filename_bytes);
                               filename_bytes; be_bytes 8 filesize]
                ++ [EvRecv 1024 METADATA_OK])).
  destruct (send_loop_payload _ content filesize 0 c1 eq_refl
              (no_fault_drop 3 _ Hok))
    as (chunks & Hloop & Hcat & Hall).
  rewrite Z.sub_0_r in Hcat.
  exists chunks. split; [exact Hcat|]. split; [exact Hall|].
  unfold send_file, call. rewrite Hex. cbn [negb].
  unfold bind at 1, lift. rewrite Hsize.
  unfold ret, try_finally, try_except, send_file_try.
  unfold bind at 1 2 3, socket, connect, log_event.
  cbn [inbox send_faults trace app].
  rewrite (send_header_no_fault _ filename_bytes filesize)
    by first [exact Henc | exact Hname | exact Hrange | exact Hok].
  cbn [inbox send_faults trace app map].
  unfold bind at 1, sock_recv, io.
  rewrite conn_recv_token by (vm_compute; first [discriminate | reflexivity]).
  destruct (decide (METADATA_OK = METADATA_OK)) as [_|Hne]; [|contradiction].
  unfold send_payload, bind, lift, ret, return_, sock_recv, io.
  rewrite Hopen.
  change (mkConn rest (drop 3 faults) _) with c1 at 1. rewrite Hloop.
  subst c1. cbn [inbox send_faults trace app map].
  rewrite drop_drop.
  destruct (conn_recv 1024 _) as [[e|final_ack] c2].
  - destruct e; reflexivity.
  - destruct (decide (final_ack = OK)) as [Heq|Hne];
      [rewrite (bool_decide_eq_true_2 _ Heq)
      | rewrite (bool_decide_eq_false_2 _ Hne)]; reflexivity.
Qed.

(** X9.  What the sender streams.  When nothing fails and the metadata is
    acknowledged, the payload written is the source from its first byte, in
    chunks of 1 to 4096 bytes, up to the declared size rounded up to a whole
    number of chunks or to the end of the source, whichever comes first:
    all of a source that is as long as declared or shorter, and up to 4095
    bytes more than declared of one that has grown.  The sender then waits
    for the final token, and returns [True] exactly when it is [OK]. *)
Theorem sender_streams_source_prefix
    (filename : pystr) (src : Source) (filename_bytes content : bytes)
    (filesize : Z) (rest : list segment) (faults : list bool) :
  src_exists src = true ->
  src_getsize src = inr filesize ->
  src_open src = inr content ->
  0 <= filesize < 2 ^ 64 ->
  utf8_encode (basename filename) = Some filename_bytes ->
  len filename_bytes < 2 ^ 32 ->
  no_fault faults = true ->
  exists chunks,
    concat chunks = take (Z.to_nat (read_span filesize)) content
    /\ forallb is_chunk chunks = true
    /\ send_file filename src Connected (Data METADATA_OK :: rest) faults
       = match conn_recv 1024
                 (mkConn rest (drop (3 + length chunks) faults)
                    ([EvSocket; EvConnect true]
                     ++ map EvSend [be_bytes 4 (len filename_bytes);
                                    filename_bytes; be_bytes 8 filesize]
                     ++ [EvRecv 1024 METADATA_OK]
                     ++ map EvSend chunks)) with
         | (inr final_ack, c) => (inr (bool_decide (final_ack = OK)), conn_close c)
         | (inl _, c) => (inr false, conn_close c)
         end.
Proof. apply send_file_streams. Qed.

Lemma sender_streams_source_prefix_witness :
  exists chunks,
    concat chunks = take (Z.to_nat (read_span 5)) (b_lit "hello, world")
    /\ forallb is_chunk chunks = true
    /\ send_file (str_lit "dir/a.b")
         (mkSource true (inr 5) (inr (b_lit "hello, world"))) Connected
         (Data METADATA_OK :: [Data OK]) []
       = match conn_recv 1024
                 (mkConn [Data OK] (drop (3 + length chunks) [])
                    ([EvSocket; EvConnect true]
                     ++ map EvSend [be_bytes 4 (len (b_lit "a.b"));
                                    b_lit "a.b"; be_bytes 8 5]
                     ++ [EvRecv 1024 METADATA_OK]
                     ++ map EvSend chunks)) with
         | (inr final_ack, c) => (inr (bool_decide (final_ack = OK)), conn_close c)
         | (inl _, c) => (inr false, conn_close c)
         end.
Proof.
  apply (sender_streams_source_prefix (str_lit "dir/a.b")
           (mkSource true (inr 5) (inr (b_lit "hello, world"))) (b_lit "a.b")
           (b_lit "hello, world") 5 [Data OK] []);
    first [reflexivity | vm_compute; reflexivity
          | split; vm_compute; first [discriminate | reflexivity]].
Defined.

(** ** The sender's side of the protocol *)

Lemma reads_app a b : reads (a ++ b) = reads a ++ reads b.
Proof.
  induction a as [|[] a IH]; cbn; auto; rewrite IH; reflexivity.
Qed.

Lemma send_header_events name filesize c r c' :
  send_header name filesize c = (r, c') ->
  exists evs, trace c' = trace c ++ evs /\ reads evs = []
              /\ (forall x, r <> Ret x).
Proof.
  unfold send_header, bind, lift, raise, ret, sock_send, io.
  destruct (utf8_encode name) as [filename_bytes|].
  2:{ intros H; injection H as <- <-. exists []. rewrite app_nil_r.
      repeat split; auto; discriminate. }
  destruct (pack_I (len filename_bytes)) as [e|packed_len].
  { intros H; injection H as <- <-. exists []. rewrite app_nil_r.
    repeat split; auto; discriminate. }
  destruct (conn_send packed_len c) as [[e|[]] c1] eqn:E1;
    apply conn_send_trace in E1; destruct E1 as [T1 I1].
  { intros H; injection H as <- <-.
    eexists; repeat split; eauto; discriminate. }
  destruct (conn_send filename_bytes c1) as [[e|[]] c2] eqn:E2;
    apply conn_send_trace in E2; destruct E2 as [T2 I2].
  { intros H; injection H as <- <-. rewrite T2, T1, <- app_assoc.
    eexists; repeat split; eauto; discriminate. }
  destruct (pack_Q filesize) as [e|packed_size].
  { intros H; injection H as <- <-. rewrite T2, T1, <- app_assoc.
    eexists; repeat split; eauto; discriminate. }
  destruct (conn_send packed_size c2) as [[e|[]] c3] eqn:E3;
    apply conn_send_trace in E3; destruct E3 as [T3 I3];
    intros H; injection H as <- <-; rewrite T3, T2, T1, <- !app_assoc;
    eexists; repeat split; eauto; discriminate.
Qed.

Lemma send_payload_summary src filesize c r c' :
  send_payload src filesize c = (r, c') ->
  exists evs,
    trace c' = trace c ++ evs
    /\ (forall x, r <> Val x)
    /\ (r = Ret true -> reads evs = [(1024, OK)]).
Proof.
  unfold send_payload, bind, lift, raise, ret, return_, sock_recv, io.
  destruct (src_open src) as [e|f].
  { intros H; injection H as <- <-. exists []. rewrite app_nil_r.
    repeat split; discriminate. }
  destruct (send_loop f filesize 0 c) as [r1 c1] eqn:E1.
  destruct (send_loop_trace _ _ _ _ _ _ _ eq_refl E1) as (evs & T1 & _ & R1 & N1).
  destruct r1 as [[]|x|e].
  2:{ exfalso. eapply N1. reflexivity. }
  2:{ intros H; injection H as <- <-. exists evs. repeat split; auto; discriminate. }
  destruct (conn_recv 1024 c1) as [[e|d] c2] eqn:E2;
    pose proof (conn_recv_trace _ _ _ _ E2) as T2.
  - intros H; injection H as <- <-. rewrite T2, T1, <- app_assoc.
    eexists. repeat split; eauto; discriminate.
  - destruct (decide (d = OK)) as [->|Hne]; intros H; injection H as <- <-;
      rewrite T2, T1, <- app_assoc; eexists; repeat split; eauto; try discriminate.
    intros _. rewrite reads_app, R1. reflexivity.
Qed.

Lemma send_file_try_summary filename src link filesize c r c' :
  send_file_try filename src link filesize c = (r, c') ->
  exists ok evs,
    trace c' = trace c ++ EvSocket :: EvConnect ok :: evs
    /\ (forall x, r <> Val x)
    /\ (r = Ret true -> reads evs = [(1024, METADATA_OK); (1024, OK)])
    /\ (link <> Connected ->
        ok = false /\ evs = [] /\ inbox c' = inbox c
        /\ send_faults c' = send_faults c /\ exists e, r = Exc e).
Proof.
  unfold send_file_try, bind at 1 2, socket, connect, log_event.
  destruct link; cbn [trace inbox send_faults bind raise].
  2,3: unfold bind, raise; cbn;
       intros H; injection H as <- <-; cbn;
       exists false, []; rewrite <- app_assoc;
       repeat split; eauto; discriminate.
  unfold bind at 1.
  destruct (send_header _ _ _) as [r3 c3] eqn:E3.
  destruct (send_header_events _ _ _ _ _ E3) as (evs & T3 & R3 & N3).
  cbn [trace] in T3.
  destruct r3 as [[]|x|e].
  2:{ exfalso. eapply N3. reflexivity. }
  2:{ intros H; injection H as <- <-. exists true, evs.
      rewrite T3, <- !app_assoc. repeat split; try discriminate; congruence. }
  unfold bind, sock_recv, io, return_.
  destruct (conn_recv 1024 c3) as [[e|d] c4] eqn:E4;
    pose proof (conn_recv_trace _ _ _ _ E4) as T4.
  { intros H; injection H as <- <-. exists true, (evs ++ [EvRecvErr 1024]).
    rewrite T4, T3, <- !app_assoc. repeat split; try discriminate; congruence. }
  destruct (decide (d = METADATA_OK)) as [->|Hne].
  - intros H. apply send_payload_summary in H.
    destruct H as (evs' & T5 & N5 & R5).
    exists true, (evs ++ EvRecv 1024 METADATA_OK :: evs').
    rewrite T5, T4, T3, <- !app_assoc. repeat split; auto; try congruence.
    intros Hr. rewrite reads_app, R3. cbn [reads app]. rewrite (R5 Hr). reflexivity.
  - intros H; injection H as <- <-. exists true, (evs ++ [EvRecv 1024 d]).
    rewrite T4, T3, <- !app_assoc. repeat split; try discriminate; congruence.
Qed.

Lemma send_file_summary filename src link replies faults filesize :
  src_exists src = true ->
  src_getsize src = inr filesize ->
  exists b ok evs c',
    send_file filename src link replies faults = (inr b, c')
    /\ trace c' = EvSocket :: EvConnect ok :: evs ++ [EvClose]
    /\ (b = true -> reads evs = [(1024, METADATA_OK); (1024, OK)])
    /\ (link <> Connected ->
        b = false /\ ok = false /\ evs = [] /\ inbox c' = replies
        /\ send_faults c' = faults).
Proof.
  intros Hex Hsize. unfold send_file, call. rewrite Hex. cbn [negb].
  unfold bind at 1, lift. rewrite Hsize.
  unfold ret, try_finally, try_except, sock_close, log_event.
  destruct (send_file_try _ _ _ _ _) as [r c1] eqn:Etry.
  destruct (send_file_try_summary _ _ _ _ _ _ _ Etry)
    as (ok & evs & T & N & R & L). cbn [trace inbox send_faults] in T, L.
  destruct r as [x|b|e].
  - exfalso. eapply N. reflexivity.
  - exists b, ok, evs. eexists. split; [reflexivity|]. cbn [trace inbox send_faults].
    rewrite T. split; [reflexivity|].
    split; [intros ->; apply R; reflexivity|].
    intros H. destruct (L H) as (_ & _ & _ & _ & [e He]). discriminate He.
  - exists false, ok, evs.
    assert (Hh : (match e with
                  | ConnectionRefusedError => @return_ Conn bool bool false
                  | _ => return_ false
                  end) c1 = (Ret false, c1)) by (destruct e; reflexivity).
    rewrite Hh. eexists. split; [reflexivity|]. cbn [trace inbox send_faults].
    rewrite T. split; [reflexivity|]. split; [discriminate|].
    intros H. destruct (L H) as (-> & -> & Hi & Hs & _). repeat split; auto.
Qed.

(** X10.  [send_file] returns [True] only when it has read both
    acknowledgments, each in one read and in full: [METADATA_OK] at the
    checkpoint and [OK] at the end.  This holds whatever the source, the
    network and the peer do. *)
Theorem sender_success_means_both_acknowledgments
    (filename : pystr) (src : Source) (link : connect_result)
    (replies : list segment) (faults : list bool) :
  fst (send_file filename src link replies faults) = inr true ->
  reads (trace (snd (send_file filename src link replies faults)))
  = [(1024, METADATA_OK); (1024, OK)].
Proof.
  destruct (src_exists src) eqn:Hex.
  2:{ unfold send_file, call. rewrite Hex. cbn. discriminate. }
  destruct (src_getsize src) as [e|filesize] eqn:Hsize.
  { unfold send_file, call. rewrite Hex. cbn [negb].
    unfold bind at 1, lift. rewrite Hsize. cbn. discriminate. }
  destruct (send_file_summary filename src link replies faults filesize Hex Hsize)
    as (b & ok & evs & c' & Hrun & T & R & _).
  rewrite Hrun. cbn [fst snd]. intros H. injection H as ->.
  rewrite T. cbn [reads]. rewrite reads_app, (R eq_refl). reflexivity.
Qed.

Lemma sender_success_means_both_acknowledgments_witness :
  reads (trace (snd (send_file (str_lit "dir/a.b")
                       (mkSource true (inr 5) (inr (b_lit "hello"))) Connected
                       [Data METADATA_OK; Data OK] [])))
  = [(1024, METADATA_OK); (1024, OK)].
Proof.
  apply (sender_success_means_both_acknowledgments (str_lit "dir/a.b")
           (mkSource true (inr 5) (inr (b_lit "hello"))) Connected
           [Data METADATA_OK; Data OK] []).
  vm_compute. reflexivity.
Defined.



(** X12.  When the connection cannot be established (refused or any other
    error), [send_file] returns [False] having written and read nothing:
    the socket is created, the connection attempt fails, the socket is
    closed. *)
Theorem failed_connection_sends_nothing
    (filename : pystr) (src : Source) (link : connect_result)
    (replies : list segment) (faults : list bool) (filesize : Z) :
  src_exists src = true ->
  src_getsize src = inr filesize ->
  link <> Connected ->
  send_file filename src link replies faults
  = (inr false, mkConn replies faults [EvSocket; EvConnect false; EvClose]).
Proof.
  intros Hex Hsize Hlink.
  destruct (send_file_summary filename src link replies faults filesize Hex Hsize)
    as (b & ok & evs & c' & Hrun & T & _ & L).
  destruct (L Hlink) as (-> & -> & -> & Hi & Hs).
  rewrite Hrun. f_equal. destruct c' as [i f t]. cbn in *. subst. reflexivity.
Qed.

Lemma failed_connection_sends_nothing_witness :
  send_file (str_lit "dir/a.b") (mkSource true (inr 5) (inr (b_lit "hello")))
    Refused [] []
  = (inr false, mkConn [] [] [EvSocket; EvConnect false; EvClose]).
Proof.
  apply (failed_connection_sends_nothing (str_lit "dir/a.b")
           (mkSource true (inr 5) (inr (b_lit "hello"))) Refused [] [] 5);
    first [reflexivity | discriminate].
Defined.

(** *** The two programs together *)

Lemma sent_sends l : sent (map EvSend l) = l.
Proof. induction l as [|x l IH]; cbn; [|rewrite IH]; reflexivity. Qed.

Lemma utf8_encode_cp_nonempty c e : utf8_encode_cp c = Some e -> e <> [].
Proof.
  unfold utf8_encode_cp. intros H.
  repeat match type of H with
         | (if ?b then _ else _) = _ => destruct b
         end; try discriminate; injection H as <-; discriminate.
Qed.

Lemma utf8_encode_nonempty s e : utf8_encode s = Some e -> s <> [] -> e <> [].
Proof.
  destruct s as [|c s]; [contradiction|]. cbn [utf8_encode]. intros H _.
  destruct (utf8_encode_cp c) as [ec|] eqn:Ec; [|discriminate].
  destruct (utf8_encode s) as [es|]; [|discriminate].
  injection H as <-. apply utf8_encode_cp_nonempty in Ec.
  destruct ec; [contradiction | discriminate].
Qed.

Lemma utf8_encode_cp_fsencode c e : utf8_encode_cp c = Some e -> fsencode_cp c = Some e.
Proof.
  unfold fsencode_cp, utf8_encode_cp. intros H.
  destruct ((0xDC80 <=? c) && (c <=? 0xDCFF)) eqn:Es; [|exact H].
  apply andb_true_iff in Es as [E1 E2].
  apply Z.leb_le in E1. apply Z.leb_le in E2.
  repeat match type of H with
         | (if ?b then _ else _) = _ => destruct b eqn:?
         end; try discriminate;
    repeat match goal with
           | E : (_ <? _) = _ |- _ => first [apply Z.ltb_lt in E | apply Z.ltb_ge in E]
           | E : (_ && _) = false |- _ => apply andb_false_iff in E as [E|E]
           | E : (_ <=? _) = false |- _ => apply Z.leb_gt in E
           end; lia.
Qed.

Lemma utf8_encode_fsencode s e : utf8_encode s = Some e -> fsencode s = Some e.
Proof.
  revert e. induction s as [|c s IH]; intros e; cbn [utf8_encode fsencode].
  - exact (fun H => H).
  - destruct (utf8_encode_cp c) as [ec|] eqn:Ec; [|discriminate].
    destruct (utf8_encode s) as [es|]; [|discriminate].
    intros H. rewrite (utf8_encode_cp_fsencode _ _ Ec), (IH _ eq_refl). exact H.
Qed.

(** X13.  Sender and receiver agree.  A source that can be read in full and
    has the size the sender measured, whose base name is a valid file name
    (encodable, without NUL, at most [NAME_MAX] bytes, not a directory
    name), is sent over a sound connection to a receiver whose output
    directory is absent or a directory and whose destination is not a
    directory.  The sender, answered [METADATA_OK] and [OK], returns
    [True]; the receiver, given the sender's writes one run per write,
    returns normally having written exactly [METADATA_OK] and [OK]; and the
    destination [received_files/<base name>] then holds exactly the content
    of the source. *)
Theorem transfer_end_to_end
    (filename : pystr) (src : Source) (filename_bytes content : bytes)
    (fs0 : FS) :
  src_exists src = true ->
  src_getsize src = inr (len content) ->
  src_open src = inr content ->
  len content < 2 ^ 64 ->
  utf8_encode (basename filename) = Some filename_bytes ->
  len filename_bytes <= NAME_MAX ->
  has_nul (basename filename) = false ->
  names_directory (basename filename) = false ->
  fs0 !! received_files = None \/ fs0 !! received_files = Some Dir ->
  fs0 !! (received_files ++ sep :: basename filename) <> Some Dir ->
  exists c' w',
    send_file filename src Connected [Data METADATA_OK; Data OK] []
    = (inr true, c')
    /\ receive_file (mkWorld (mkConn (map Data (sent (trace c'))) [] []) fs0 [])
       = (inr tt, w')
    /\ sent (trace (conn w')) = [METADATA_OK; OK]
    /\ fs w' = <[received_files ++ sep :: basename filename := File content]>
                 (<[received_files := Dir]> fs0).
Proof.
  intros Hex Hsize Hopen Hrange Henc Hmax Hnul Hnd Hdir Hfile.
  assert (Hname : len filename_bytes < 2 ^ 32) by (unfold NAME_MAX in Hmax; lia).
  pose proof (len_nonneg content) as H0.
  destruct (send_file_streams filename src filename_bytes content (len content)
              [Data OK] [] Hex Hsize Hopen (conj H0 Hrange) Henc Hname eq_refl)
    as (chunks & Hcat & _ & Hrun).
  assert (Hall : concat chunks = content).
  { rewrite Hcat. apply take_ge.
    destruct (read_span_ge (len content)) as [H|[H _]]; unfold len in *; lia. }
  rewrite conn_recv_token in Hrun
    by first [discriminate | vm_compute; discriminate].
  rewrite bool_decide_eq_true_2 in Hrun by reflexivity.
  assert (Hne : filename_bytes <> []).
  { apply (utf8_encode_nonempty _ _ Henc). intros E. rewrite E in Hnd.
    discriminate. }
  edestruct (receive_file_complete (basename filename) filename_bytes
               (len content) chunks []
               (mkWorld (mkConn (map Data
                  ([be_bytes 4 (len filename_bytes); filename_bytes;
                    be_bytes 8 (len content)] ++ chunks)) [] []) fs0 []))
    as (w' & evs & empties & Hr & T & S' & F & _).
  - exists (Data filename_bytes :: Data (be_bytes 8 (len content))
            :: map Data chunks ++ []),
      (Data (be_bytes 8 (len content)) :: map Data chunks ++ []).
    cbn [conn inbox map app]. rewrite app_nil_r.
    repeat split; apply offers_segment;
      first [apply be_bytes_nonempty | exact Hne].
  - apply utf8_decode_encode, Henc.
  - exact Hname.
  - lia.
  - unfold plain_name.
    rewrite basename_no_sep, Hnd, Hnul, (utf8_encode_fsencode _ _ Henc).
    apply Z.leb_le in Hmax. rewrite Hmax. reflexivity.
  - rewrite Hall. reflexivity.
  - reflexivity.
  - exact Hdir.
  - exact Hfile.
  - eexists. exists w'. split; [exact Hrun|].
    cbn [conn_close trace inbox send_faults].
    rewrite !sent_app, sent_sends. cbn [sent app].
    rewrite sent_sends, !app_nil_r. cbn [app] in Hr.
    split; [exact Hr|]. split.
    + cbn [conn trace app] in T. rewrite T, sent_app, S'. reflexivity.
    + rewrite F, Hall. reflexivity.
Qed.

Lemma transfer_end_to_end_witness :
  exists c' w',
    send_file (str_lit "dir/a.b")
      (mkSource true (inr (len (b_lit "hello"))) (inr (b_lit "hello")))
      Connected [Data METADATA_OK; Data OK] []
    = (inr true, c')
    /\ receive_file (mkWorld (mkConn (map Data (sent (trace c'))) [] [])
                       (∅ : FS) [])
       = (inr tt, w')
    /\ sent (trace (conn w')) = [METADATA_OK; OK]
    /\ fs w' = <[received_files ++ sep :: basename (str_lit "dir/a.b")
                 := File (b_lit "hello")]>
                 (<[received_files := Dir]> (∅ : FS)).
Proof.
  apply (transfer_end_to_end (str_lit "dir/a.b")
           (mkSource true (inr (len (b_lit "hello"))) (inr (b_lit "hello")))
           (b_lit "a.b") (b_lit "hello") (∅ : FS)).
  - reflexivity.
  - reflexivity.
  - reflexivity.
  - vm_compute. reflexivity.
  - vm_compute. reflexivity.
  - vm_compute. discriminate.
  - vm_compute. reflexivity.
  - vm_compute. reflexivity.
  - left. reflexivity.
  - vm_compute. discriminate.
Defined.

(** ** The name on the wire and the place of the file *)

Lemma send_header_sent name filesize c r c' :
  send_header name filesize c = (r, c') ->
  exists evs, trace c' = trace c ++ evs
              /\ (forall x, sent evs !! 1%nat = Some x -> utf8_encode name = Some x)
              /\ (r = Val tt -> length (sent evs) = 3%nat).
Proof.
  unfold send_header, bind, lift, raise, ret, sock_send, io.
  destruct (utf8_encode name) as [filename_bytes|].
  2:{ intros H; injection H as <- <-. exists []. rewrite app_nil_r.
      repeat split; intros; discriminate. }
  destruct (pack_I (len filename_bytes)) as [e|packed_len].
  { intros H; injection H as <- <-. exists []. rewrite app_nil_r.
    repeat split; intros; discriminate. }
  destruct (conn_send packed_len c) as [[e|[]] c1] eqn:E1;
    apply conn_send_trace in E1; destruct E1 as [T1 _].
  { intros H; injection H as <- <-.
    eexists; split; [exact T1|]. split; intros; discriminate. }
  destruct (conn_send filename_bytes c1) as [[e|[]] c2] eqn:E2;
    apply conn_send_trace in E2; destruct E2 as [T2 _].
  { intros H; injection H as <- <-. rewrite T2, T1, <- app_assoc.
    eexists; split; [reflexivity|]. split; intros; discriminate. }
  destruct (pack_Q filesize) as [e|packed_size].
  { intros H; injection H as <- <-. rewrite T2, T1, <- app_assoc.
    eexists; split; [reflexivity|]. cbn. split; [|discriminate].
    intros x Hx. injection Hx as <-. reflexivity. }
  destruct (conn_send packed_size c2) as [[e|[]] c3] eqn:E3;
    apply conn_send_trace in E3; destruct E3 as [T3 _];
    intros H; injection H as <- <-; rewrite T3, T2, T1, <- !app_assoc;
    (eexists; split; [reflexivity|]); cbn;
    (split; [intros x Hx; injection Hx as <-; reflexivity|]);
    first [discriminate | reflexivity].
Qed.

Lemma send_file_try_sent filename src link filesize c r c' :
  send_file_try filename src link filesize c = (r, c') ->
  exists evs, trace c' = trace c ++ evs
              /\ (forall x, sent evs !! 1%nat = Some x ->
                            utf8_encode (basename filename) = Some x).
Proof.
  unfold send_file_try, bind at 1 2, socket, connect, log_event.
  destruct link; cbn [trace inbox send_faults bind raise].
  2,3: unfold bind, raise; cbn;
       intros H; injection H as <- <-; cbn;
       exists [EvSocket; EvConnect false]; rewrite <- app_assoc;
       split; [reflexivity | intros; discriminate].
  unfold bind at 1.
  destruct (send_header _ _ _) as [r3 c3] eqn:E3.
  destruct (send_header_sent _ _ _ _ _ E3) as (evs & T3 & N3 & L3).
  cbn [trace] in T3.
  assert (Hmore : forall more x,
             sent ([EvSocket; EvConnect true] ++ evs ++ more) !! 1%nat = Some x ->
             r3 = Val tt \/ more = [] ->
             utf8_encode (basename filename) = Some x).
  { intros more x Hx Hr. apply N3. cbn [app sent] in Hx.
    rewrite sent_app in Hx. destruct Hr as [Hr | ->].
    - rewrite lookup_app_l in Hx by (rewrite (L3 Hr); lia). exact Hx.
    - cbn [sent] in Hx. rewrite app_nil_r in Hx. exact Hx. }
  destruct r3 as [[]|x|e].
  2,3: intros H; injection H as <- <-;
       exists ([EvSocket; EvConnect true] ++ evs ++ []);
       (split; [rewrite T3, app_nil_r, <- !app_assoc; reflexivity|]);
       intros y Hy; apply (Hmore [] y Hy); right; reflexivity.
  unfold bind, sock_recv, io, return_.
  destruct (conn_recv 1024 c3) as [[e|d] c4] eqn:E4;
    pose proof (conn_recv_trace _ _ _ _ E4) as T4.
  { intros H; injection H as <- <-.
    exists ([EvSocket; EvConnect true] ++ evs ++ [EvRecvErr 1024]).
    split; [rewrite T4, T3, <- !app_assoc; reflexivity|].
    intros y Hy. apply (Hmore _ y Hy). left. reflexivity. }
  destruct (decide (d = METADATA_OK)) as [->|Hne].
  - intros H. apply send_payload_summary in H.
    destruct H as (evs' & T5 & _).
    exists ([EvSocket; EvConnect true] ++ evs ++ EvRecv 1024 METADATA_OK :: evs').
    split; [rewrite T5, T4, T3, <- !app_assoc; reflexivity|].
    intros y Hy. apply (Hmore _ y Hy). left. reflexivity.
  - intros H; injection H as <- <-.
    exists ([EvSocket; EvConnect true] ++ evs ++ [EvRecv 1024 d]).
    split; [rewrite T4, T3, <- !app_assoc; reflexivity|].
    intros y Hy. apply (Hmore _ y Hy). left. reflexivity.
Qed.

Lemma send_file_sent filename src link replies faults x :
  sent (trace (snd (send_file filename src link replies faults))) !! 1%nat = Some x ->
  utf8_encode (basename filename) = Some x.
Proof.
  unfold send_file, call.
  destruct (src_exists src); cbn [negb]; [|cbn; discriminate].
  unfold bind at 1, lift.
  destruct (src_getsize src) as [e|filesize]; [cbn; discriminate|].
  unfold ret, try_finally, try_except, sock_close, log_event.
  destruct (send_file_try _ _ _ _ _) as [r c1] eqn:Etry.
  destruct (send_file_try_sent _ _ _ _ _ _ _ Etry) as (evs & T & N).
  cbn [trace] in T.
  assert (Hclose : sent (trace c1 ++ [EvClose]) = sent evs)
    by (rewrite T, sent_app; cbn; apply app_nil_r).
  destruct r as [y|b|e]; cbn [snd trace].
  - rewrite Hclose. apply N.
  - rewrite Hclose. apply N.
  - assert (Hh : (match e with
                  | ConnectionRefusedError => @return_ Conn bool bool false
                  | _ => return_ false
                  end) c1 = (Ret false, c1)) by (destruct e; reflexivity).
    rewrite Hh. cbn [snd trace]. rewrite Hclose. apply N.
Qed.

(** A name without separator is opened directly inside the output
    directory, or not at all. *)
Lemma fs_open_wb_under (name f : pystr) (fs1 fs2 : FS) :
  no_sep name = true ->
  fs_open_wb (received_files ++ sep :: name) fs1 = (inr f, fs2) ->
  f = received_files ++ sep :: name.
Proof.
  intros Hsep. unfold fs_open_wb. cbv zeta.
  destruct (fsencode _) as [encoded|]; [|discriminate].
  destruct (has_nul _); [discriminate|].
  destruct (bool_decide _); [discriminate|].
  destruct (PATH_MAX <=? _); [discriminate|].
  change (hd 0 (received_files ++ sep :: name) =? sep) with false.
  rewrite (split_sep_app received_files name eq_refl), (split_sep_no_sep _ Hsep).
  destruct name as [|c name'].
  - change (strip_trailing [received_files; []]) with [received_files].
    cbn [removelast walk List.last].
    change (names_directory received_files) with false. cbn. discriminate.
  - assert (Hstrip : strip_trailing [received_files; c :: name']
                     = [received_files; c :: name']) by reflexivity.
    rewrite Hstrip. cbn [removelast List.last walk].
    rewrite (bool_decide_eq_false_2 (received_files = [])) by discriminate.
    rewrite (bool_decide_eq_false_2 (received_files = dot)) by discriminate.
    rewrite (bool_decide_eq_false_2 (received_files = dotdot)) by discriminate.
    cbn [orb].
    change (NAME_MAX <? name_len received_files) with false. cbv iota.
    change (key_of false ([] ++ [received_files])) with (received_files ++ []).
    rewrite app_nil_r.
    destruct (fs1 !! received_files) as [[|x]|]; try discriminate.
    destruct (names_directory _); [discriminate|].
    destruct (negb _); [discriminate|].
    destruct (NAME_MAX <? _); [discriminate|].
    change (key_of false (([] ++ [received_files]) ++ [c :: name']))
      with (received_files ++ (sep :: c :: name') ++ []).
    rewrite app_nil_r.
    destruct (fs1 !! _) as [[|x]|]; [discriminate| |];
      intros H; injection H as <- _; reflexivity.
Qed.

Lemma receive_payload_local name filesize w r w' q :
  0 <= filesize ->
  no_sep name = true ->
  receive_payload name filesize w = (r, w') ->
  q <> received_files ->
  q <> received_files ++ sep :: name ->
  fs w' !! q = fs w !! q.
Proof.
  intros Hsize Hsep H Hq1 Hq2. revert H. unfold receive_payload.
  unfold bind at 1.
  destruct (send METADATA_OK w) as [r0 w0] eqn:E0.
  destruct (send_inv _ _ _ _ E0) as (F0 & _ & _ & [(-> & _)|(-> & _)]).
  2:{ intros H; injection H as <- <-. rewrite F0. reflexivity. }
  unfold bind at 1, makedirs, on_fs.
  assert (Hmk : exists x fs1, fs_makedirs received_files (fs w0) = (x, fs1)
                              /\ fs1 !! q = fs w !! q).
  { unfold fs_makedirs. rewrite F0.
    destruct (fs w !! received_files) as [[|c]|]; eexists _, _;
      (split; [reflexivity|]); rewrite ?lookup_insert_ne by congruence;
      reflexivity. }
  destruct Hmk as (x & fs1 & -> & Hfs1).
  destruct x as [e|[]].
  { intros H; injection H as <- <-. exact Hfs1. }
  cbv zeta. rewrite (path_join_relative _ Hsep).
  unfold bind at 1, open_wb, on_fs. cbn [conn fs console].
  destruct (fs_open_wb_outcome (received_files ++ sep :: name) fs1)
    as [[e He] | (f & Hf & _)].
  { rewrite He. intros H; injection H as <- <-. exact Hfs1. }
  rewrite Hf. apply fs_open_wb_under in Hf as ->; [|exact Hsep].
  unfold bind at 1.
  destruct (recv_loop _ filesize 0 _) as [r3 w3] eqn:El.
  destruct (recv_loop_inv _ filesize _ 0 _ _ _ eq_refl Hsize El)
    as (evs & _ & _ & _ & _ & _ & _ & _ & _ & _ & Hfs & _).
  cbn [fs] in Hfs.
  assert (Hw3 : fs w3 !! q = fs w !! q)
    by (rewrite Hfs, fs_write_other by congruence;
        rewrite lookup_insert_ne by congruence; exact Hfs1).
  destruct r3 as [[]|[]|e]; try (intros H; injection H as <- <-; exact Hw3).
  unfold bind, print, send, on_conn. cbn [conn fs console].
  destruct (conn_send OK (conn w3)) as [[?|[]] ?];
    intros H; injection H as <- <-; exact Hw3.
Qed.

Lemma receive_file_local w name filesize w1 r w' q :
  recv_header (mkWorld (conn w) (fs w) (console w ++ [MsgConnection]))
  = (Val (name, filesize), w1) ->
  no_sep name = true ->
  receive_file w = (r, w') ->
  q <> received_files ->
  q <> received_files ++ sep :: name ->
  fs w' !! q = fs w !! q.
Proof.
  intros Hh Hsep H Hq1 Hq2. revert H.
  unfold receive_file, call, try_finally, try_except, close.
  unfold bind at 1, print at 1.
  unfold receive_file_try, bind at 1. rewrite Hh.
  destruct (recv_header_fs _ _ _ Hh) as [F1 Hsz]. cbn [fs] in F1.
  destruct (receive_payload name filesize w1) as [r2 w2] eqn:Ep.
  pose proof (receive_payload_local _ _ _ _ _ q Hsz Hsep Ep Hq1 Hq2) as F2.
  rewrite F1 in F2.
  destruct r2 as [[]|[]|e]; cbn [conn fs console];
    try (intros H; injection H as <- <-; exact F2).
  unfold bind, print, send, on_conn. cbn [conn fs console].
  destruct (conn_send ERROR (conn w2)) as [[?|[]] ?];
    intros H; injection H as <- <-; exact F2.
Qed.

(** X6.  The name stays inside the output directory.  Whatever path
    [send_file] is given and however the run goes, the second thing it
    writes, if it gets that far, is the UTF-8 encoding of the base name of
    the path, which has no separator in it.  And a [receive_file] session
    whose header carries a name without separator changes nothing on disk
    but [received_files] itself and [received_files/name]. *)
Theorem sent_name_stays_in_output_directory :
  (forall (filename : pystr) (src : Source) (link : connect_result)
          (replies : list segment) (faults : list bool) (name_field : bytes),
      sent (trace (snd (send_file filename src link replies faults))) !! 1%nat
      = Some name_field ->
      utf8_decode name_field = Some (basename filename)
      /\ no_sep (basename filename) = true)
  /\ (forall (w : World) (name : pystr) (filesize : Z) (w1 : World)
             (r : exn + unit) (w' : World) (q : pystr),
         recv_header (mkWorld (conn w) (fs w) (console w ++ [MsgConnection]))
         = (Val (name, filesize), w1) ->
         no_sep name = true ->
         receive_file w = (r, w') ->
         q <> received_files ->
         q <> received_files ++ sep :: name ->
         fs w' !! q = fs w !! q).
Proof.
  split.
  - intros filename src link replies faults name_field H.
    apply send_file_sent in H.
    split; [apply utf8_decode_encode, H | apply basename_no_sep].
  - apply receive_file_local.
Qed.

Lemma sent_name_stays_in_output_directory_witness :
  (utf8_decode (b_lit "a.b") = Some (basename (str_lit "dir/a.b"))
   /\ no_sep (basename (str_lit "dir/a.b")) = true)
  /\ fs (snd (receive_file (mkWorld good_client {[ str_lit "kept" := File (b_lit "x") ]} [])))
     !! str_lit "kept"
     = fs (mkWorld good_client {[ str_lit "kept" := File (b_lit "x") ]} [])
       !! str_lit "kept".
Proof.
  split.
  - apply (proj1 sent_name_stays_in_output_directory (str_lit "dir/a.b")
             (mkSource true (inr 5) (inr (b_lit "hello"))) Connected
             [Data METADATA_OK; Data OK] [] (b_lit "a.b")).
    vm_compute. reflexivity.
  - apply (proj2 sent_name_stays_in_output_directory
             (mkWorld good_client {[ str_lit "kept" := File (b_lit "x") ]} [])
             (str_lit "a.b") 5
             (snd (recv_header
                     (mkWorld good_client {[ str_lit "kept" := File (b_lit "x") ]}
                        ([] ++ [MsgConnection]))))
             (fst (receive_file
                     (mkWorld good_client {[ str_lit "kept" := File (b_lit "x") ]} [])))
             (snd (receive_file
                     (mkWorld good_client {[ str_lit "kept" := File (b_lit "x") ]} [])))
             (str_lit "kept")).
    + vm_compute. reflexivity.
    + vm_compute. reflexivity.
    + destruct (receive_file _); reflexivity.
    + vm_compute. discriminate.
    + vm_compute. discriminate.
Defined.

(** ** The XML-RPC upload *)

Lemma fs_write_fresh (f : pystr) (data : bytes) (fs0 : FS) :
  fs_write f data (<[f := File []]> fs0) = <[f := File data]> fs0.
Proof.
  unfold fs_write. rewrite lookup_insert_eq, insert_insert_eq. reflexivity.
Qed.

(** What an upload leaves behind, whatever its outcome. *)
Lemma upload_file_outcome (received_dir filename : pystr)
    (b64decode : option bytes) (h : Host) :
  let r := upload_file received_dir filename b64decode h in
  let filepath := path_join received_dir filename in
  host_write (snd r) = host_write h
  /\ host_print (snd r) = host_print h
  /\ match fst r with
     | inr (UploadSuccess name size path) =>
         exists file_data f,
           b64decode = Some file_data
           /\ name = filename /\ size = len file_data /\ path = filepath
           /\ fs_open_wb filepath (host_fs h) = (inr f, <[f := File []]> (host_fs h))
           /\ host_fs h !! f <> Some Dir
           /\ host_fs (snd r) = <[f := File file_data]> (host_fs h)
           /\ host_console (snd r) = host_console h ++ [RpcReceived filename size]
     | _ =>
         host_fs (snd r) = host_fs h
         \/ exists file_data f k,
              b64decode = Some file_data
              /\ fs_open_wb filepath (host_fs h) = (inr f, <[f := File []]> (host_fs h))
              /\ host_fs h !! f <> Some Dir
              /\ host_fs (snd r) = <[f := File (take k file_data)]> (host_fs h)
     end.
Proof.
  cbv zeta.
  destruct (upload_file received_dir filename b64decode h) as [r h'] eqn:E.
  cbn [fst snd]. revert E. unfold upload_file.
  destruct b64decode as [file_data|].
  2:{ unfold upload_failed, rpc_print.
      destruct (host_print h (RpcError BinasciiError));
        intros E; injection E as <- <-; cbn; auto. }
  cbv zeta.
  destruct (fs_open_wb_outcome (path_join received_dir filename) (host_fs h))
    as [[e He] | (f & Hf & Hnd)]; rewrite ?He, ?Hf.
  { unfold upload_failed, rpc_print, host_store. cbn [host_print host_fs].
    destruct (host_print h (RpcError e));
      intros E; injection E as <- <-; cbn; auto. }
  destruct (host_write h f file_data) as [[k e]|].
  { unfold upload_failed, rpc_print, host_store. cbn [host_print host_fs].
    rewrite fs_write_fresh.
    destruct (host_print h (RpcError e));
      intros E; injection E as <- <-; cbn;
      (split; [reflexivity|]); (split; [reflexivity|]);
      right; exists file_data, f, k; auto. }
  unfold rpc_print at 1, host_store. cbn [host_print host_fs host_console host_write].
  rewrite fs_write_fresh.
  destruct (host_print h (RpcReceived filename (len file_data))) as [e|].
  { unfold upload_failed, rpc_print. cbn [host_print host_fs].
    destruct (host_print h (RpcError e));
      intros E; injection E as <- <-; cbn;
      (split; [reflexivity|]); (split; [reflexivity|]);
      right; exists file_data, f, (length file_data);
      rewrite firstn_all; auto. }
  intros E; injection E as <- <-. cbn. split; [reflexivity|]. split; [reflexivity|].
  exists file_data, f. repeat split; auto.
Qed.

(** X14.  An upload touches only the file it opened.  A success reply
    carries the name the method was called with, the number of decoded
    bytes and the joined path, and the disk then differs from the one
    before only at the file that path resolved to, which holds exactly the
    decoded bytes.  When the method fails (an error reply, or an exception
    that leaves it), either the disk is as it was (the text could not be
    decoded, or the path could not be opened) or the failure came after the
    file was opened, and the disk differs only at that file, which holds the
    part of the data written before the failure. *)
Theorem upload_touches_only_the_opened_file
    (received_dir filename : pystr) (b64decode : option bytes) (h : Host) :
  let r := upload_file received_dir filename b64decode h in
  let filepath := path_join received_dir filename in
  match fst r with
  | inr (UploadSuccess name size path) =>
      exists file_data f,
        b64decode = Some file_data
        /\ name = filename /\ size = len file_data /\ path = filepath
        /\ fs_open_wb filepath (host_fs h) = (inr f, <[f := File []]> (host_fs h))
        /\ host_fs (snd r) = <[f := File file_data]> (host_fs h)
        /\ host_console (snd r) = host_console h ++ [RpcReceived filename size]
  | _ =>
      host_fs (snd r) = host_fs h
      \/ exists file_data f k,
           b64decode = Some file_data
           /\ fs_open_wb filepath (host_fs h) = (inr f, <[f := File []]> (host_fs h))
           /\ host_fs (snd r) = <[f := File (take k file_data)]> (host_fs h)
  end.
Proof.
  pose proof (upload_file_outcome received_dir filename b64decode h) as H.
  cbv zeta in *. destruct H as (_ & _ & H).
  destruct (fst (upload_file received_dir filename b64decode h)) as [e|[n sz pa|e]].
  - destruct H as [H | (d & f & k & ? & ? & ? & ?)]; [left; exact H|].
    right. exists d, f, k. auto.
  - destruct H as (d & f & ? & ? & ? & ? & ? & ? & ? & ?).
    exists d, f. repeat split; auto.
  - destruct H as [H | (d & f & k & ? & ? & ? & ?)]; [left; exact H|].
    right. exists d, f, k. auto.
Qed.

(** X15.  Constructor and method together.  On the disk left by a
    constructor that returned, uploading decodable data under a plain file
    name (no separator, no NUL, not empty, not [.] or [..], at most
    [NAME_MAX] bytes) that is not the name of a directory there succeeds
    whenever the host takes the write and the console line: the reply
    carries the name, the number of bytes and the path
    [received_files/name], and exactly that file is stored. *)
Theorem upload_after_init_succeeds
    (fs0 fs1 : FS) (received_dir filename : pystr) (file_data : bytes)
    (con : list rpc_msg) (wr : pystr -> bytes -> option (nat * exn))
    (pr : rpc_msg -> option exn) :
  FileTransferServer_init fs0 = (inr received_dir, fs1) ->
  plain_name filename = true ->
  fs1 !! (received_dir ++ sep :: filename) <> Some Dir ->
  wr (received_dir ++ sep :: filename) file_data = None ->
  pr (RpcReceived filename (len file_data)) = None ->
  upload_file received_dir filename (Some file_data) (mkHost fs1 con wr pr)
  = (inr (UploadSuccess filename (len file_data) (received_dir ++ sep :: filename)),
     mkHost (<[received_dir ++ sep :: filename := File file_data]> fs1)
       (con ++ [RpcReceived filename (len file_data)]) wr pr).
Proof.
  unfold FileTransferServer_init, fs_makedirs. intros Hinit Hplain Hfile Hwr Hpr.
  assert (received_dir = received_files /\ fs1 !! received_files = Some Dir)
    as [-> Hdir].
  { destruct (fs0 !! received_files) as [[|c]|] eqn:E; try discriminate;
      injection Hinit as <- <-; split; auto. apply lookup_insert_eq. }
  unfold upload_file. cbn [host_fs host_console host_write host_print].
  destruct (plain_name_inv _ Hplain) as (Hsep & _).
  rewrite (path_join_relative _ Hsep), (fs_open_wb_plain _ _ Hplain Hdir Hfile).
  rewrite Hwr. unfold rpc_print, host_store.
  cbn [host_fs host_console host_write host_print]. rewrite Hpr, fs_write_fresh.
  reflexivity.
Qed.

Lemma upload_after_init_succeeds_witness :
  upload_file received_files (str_lit "a.b") (Some (b_lit "hello"))
    (mkHost (<[received_files := Dir]> (∅ : FS)) [] (fun _ _ => None) (fun _ => None))
  = (inr (UploadSuccess (str_lit "a.b") (len (b_lit "hello"))
            (received_files ++ sep :: str_lit "a.b")),
     mkHost (<[received_files ++ sep :: str_lit "a.b" := File (b_lit "hello")]>
               (<[received_files := Dir]> (∅ : FS)))
       ([] ++ [RpcReceived (str_lit "a.b") (len (b_lit "hello"))])
       (fun _ _ => None) (fun _ => None)).
Proof.
  apply (upload_after_init_succeeds (∅ : FS) (<[received_files := Dir]> (∅ : FS))
           received_files (str_lit "a.b") (b_lit "hello") []
           (fun _ _ => None) (fun _ => None)).
  - reflexivity.
  - vm_compute. reflexivity.
  - vm_compute. discriminate.
  - reflexivity.
  - reflexivity.
Defined.

(** A file put where the walk found no directory does not change the
    walk. *)
Lemma walk_insert_file (fs0 : FS) (absolute : bool) (comps cur cur' : list pystr)
    (f : pystr) (content : bytes) :
  fs0 !! f <> Some Dir ->
  walk fs0 absolute cur comps = inr cur' ->
  walk (<[f := File content]> fs0) absolute cur comps = inr cur'.
Proof.
  intros Hf. revert cur. induction comps as [|c rest IH]; intros cur; cbn [walk].
  - exact (fun H => H).
  - destruct (bool_decide (c = []) || bool_decide (c = dot)); [apply IH|].
    destruct (bool_decide (c = dotdot)); [apply IH|].
    destruct (NAME_MAX <? name_len c); [discriminate|].
    destruct (fs0 !! key_of absolute (cur ++ [c])) as [[|x]|] eqn:E;
      try discriminate.
    rewrite lookup_insert_ne by (intros ->; contradiction). rewrite E. apply IH.
Qed.

(** Opening again the path of a file that was just opened (and written)
    gives the same open file on the same disk. *)
Lemma fs_open_wb_again (p f : pystr) (fs0 : FS) (content : bytes) :
  fs_open_wb p fs0 = (inr f, <[f := File []]> fs0) ->
  fs0 !! f <> Some Dir ->
  fs_open_wb p (<[f := File content]> fs0) = (inr f, <[f := File []]> fs0).
Proof.
  unfold fs_open_wb. cbv zeta. intros H Hf.
  destruct (fsencode p) as [encoded|]; [|discriminate].
  destruct (has_nul p); [discriminate|].
  destruct (bool_decide (p = [])); [discriminate|].
  destruct (PATH_MAX <=? len encoded); [discriminate|].
  destruct (walk fs0 _ [] _) as [e|cur] eqn:Ew; [discriminate|].
  rewrite (walk_insert_file _ _ _ _ _ f content Hf Ew).
  destruct (names_directory _); [discriminate|].
  destruct (negb _); [discriminate|].
  destruct (NAME_MAX <? _); [discriminate|].
  destruct (fs0 !! key_of _ _) as [[|x]|] eqn:E; [discriminate| |];
    injection H as <- _; rewrite lookup_insert_eq, insert_insert_eq; reflexivity.
Qed.

Lemma upload_file_over (received_dir filename : pystr) (second : bytes) (h h' : Host) :
  host_write h' = host_write h ->
  host_print h' = host_print h ->
  (host_fs h' = host_fs h
   \/ exists f content,
        fs_open_wb (path_join received_dir filename) (host_fs h)
        = (inr f, <[f := File []]> (host_fs h))
        /\ host_fs h !! f <> Some Dir
        /\ host_fs h' = <[f := File content]> (host_fs h)) ->
  fst (upload_file received_dir filename (Some second) h')
  = fst (upload_file received_dir filename (Some second) h)
  /\ host_fs (snd (upload_file received_dir filename (Some second) h'))
     = host_fs (snd (upload_file received_dir filename (Some second) h)).
Proof.
  intros Hw Hp Hfs. unfold upload_file. cbv zeta.
  assert (Hopen : fs_open_wb (path_join received_dir filename) (host_fs h')
                  = fs_open_wb (path_join received_dir filename) (host_fs h)).
  { destruct Hfs as [-> | (f & content & Ho & Hf & ->)]; [reflexivity|].
    rewrite Ho. apply fs_open_wb_again; assumption. }
  rewrite Hopen, Hw.
  destruct (fs_open_wb _ (host_fs h)) as [[e|f] fs1];
    unfold upload_failed, rpc_print, host_store;
    cbn [host_fs host_console host_write host_print]; rewrite ?Hp.
  - destruct (host_print h (RpcError e)); split; reflexivity.
  - destruct (host_write h f second) as [[k e]|];
      cbn [host_fs host_console host_write host_print]; rewrite ?Hp.
    + destruct (host_print h (RpcError e)); split; reflexivity.
    + destruct (host_print h (RpcReceived filename (len second))) as [e|];
        cbn [host_fs host_console host_write host_print]; rewrite ?Hp;
        [destruct (host_print h (RpcError e))|]; split; reflexivity.
Qed.

(** X16.  The last upload wins.  Uploading under a name that was uploaded
    before (successfully or not) gives the reply, and leaves the disk, that
    the later upload alone would have given: the earlier content is replaced,
    never appended to, and an earlier failure leaves nothing behind. *)
Theorem last_upload_wins
    (received_dir filename : pystr) (first : option bytes) (second : bytes)
    (h : Host) :
  let h1 := snd (upload_file received_dir filename first h) in
  fst (upload_file received_dir filename (Some second) h1)
  = fst (upload_file received_dir filename (Some second) h)
  /\ host_fs (snd (upload_file received_dir filename (Some second) h1))
     = host_fs (snd (upload_file received_dir filename (Some second) h)).
Proof.
  cbv zeta.
  pose proof (upload_file_outcome received_dir filename first h) as H.
  cbv zeta in H. destruct H as (Hw & Hp & H).
  apply upload_file_over; [exact Hw | exact Hp |].
  destruct (fst (upload_file received_dir filename first h)) as [e|[n sz pa|e]].
  - destruct H as [H | (d & f & k & _ & Ho & Hf & Hfs)]; [left; exact H|].
    right. exists f, (take k d). auto.
  - destruct H as (d & f & _ & _ & _ & _ & Ho & Hf & Hfs & _).
    right. exists f, d. auto.
  - destruct H as [H | (d & f & k & _ & Ho & Hf & Hfs)]; [left; exact H|].
    right. exists f, (take k d). auto.
Qed.
